(** * Admission control of the CAN-FD defensive gateway

    A shallow embedding of [can_fd_defense_fair_gateway.py] (the per-ID
    policy version) and the properties of its admission decision: the
    sliding-window rate tracker, the policy lookup, the engine payload
    plausibility check and one iteration of the gateway loop.  The
    encoder of the engine payload, the first version of the gateway (one
    global limit), the receiver without defence of
    [can_fd_attack_flood_dos.py] and the padded encoder of the bus demo
    are embedded too, for the properties that relate them to the gateway.

    Modelling choices.
    - Python [int] is [Z]; [len] yields a [nat].
    - [bytes] is [list Byte.byte]; a byte read as an integer is
      [Z.of_N (Byte.to_N b)].
    - [time.time()] is an input of each iteration.  A clock reading is a
      binary64 float; it is modelled by the rational number it denotes, a
      [Q].  The difference [now - ts] is the floating-point one: the exact
      difference rounded to 53 bits, to nearest, ties to even
      ([round_binary64]); the comparison with [1.0] is then exact.  The
      exponent range is not modelled: the difference of two floats is exact
      when it is subnormal, and a difference that overflows is infinite,
      which compares with [1.0] as the large finite value of the model.
    - The two dictionaries, [PER_ID_POLICY] and [id_timestamps], are the
      store of the gateway: a record of two [gmap]s, passed explicitly.
    - [struct.unpack] raises [struct.error] on a buffer of the wrong size:
      fallible code lives in the [result] monad below.
    - Each [print] that reports the fate of a frame is a constructor of
      [verdict]; the calls to the decoder and to the plausibility check are
      recorded in a trace, so that "was the payload inspected" can be
      stated. *)

From Stdlib Require Import ZArith QArith Qround Qabs Qpower Lqa List String Sorted.
From stdpp Require Import gmap strings list sorting.

Local Open Scope Z_scope.

(** ** Exceptions *)

Inductive exn := StructError.

Inductive result (A : Type) : Type :=
| Ok (a : A)
| Raise (e : exn).
Arguments Ok {A} a.
Arguments Raise {A} e.

#[global] Instance result_ret : MRet result := λ A a, Ok a.
#[global] Instance result_bind : MBind result := λ A B k r,
  match r with
  | Ok a => k a
  | Raise e => Raise e
  end.

(** [returns r P]: the computation [r] ends without an exception, with a
    value satisfying [P]. *)
Definition returns {A} (r : result A) (P : A → Prop) : Prop :=
  match r with
  | Ok a => P a
  | Raise _ => False
  end.

(** ** Constants and the policy table *)

Definition LEGIT_ID : Z := 0x200.
Definition FLOOD_ID : Z := 0x001.

Record policy_entry := {
  max_rate : Z;
  label : string;
  trusted : bool;
}.

(** A dictionary display [{k1: v1, ..., kn: vn}] with integer keys: the
    items are stored left to right, a later item replaces an earlier one
    with the same key, and nothing is raised. *)
Definition dict_display {V} (items : list (Z * V)) : result (gmap Z V) :=
  Ok (foldl (λ m kv, <[kv.1 := kv.2]> m) ∅ items).

Definition PER_ID_POLICY_items : list (Z * policy_entry) :=
  [ (LEGIT_ID, {| max_rate := 50; label := "LEGIT_ENGINE"%string; trusted := true |});
    (FLOOD_ID, {| max_rate := 10; label := "UNTRUSTED_FLOOD"%string; trusted := false |}) ].

Definition PER_ID_POLICY : gmap Z policy_entry :=
  match dict_display PER_ID_POLICY_items with
  | Ok m => m
  | Raise _ => ∅
  end.

Definition DEFAULT_MAX_RATE : Z := 15.

(** The fallback of [PER_ID_POLICY.get(msg_id, {...})]. *)
Definition default_policy : policy_entry :=
  {| max_rate := DEFAULT_MAX_RATE; label := "UNKNOWN_ID"%string; trusted := false |}.

(** ** The engine payload *)

Definition byte_val (b : Byte.byte) : Z := Z.of_N (Byte.to_N b).

(** [struct.unpack("<HBB", buf)]: little-endian unsigned 16 bits, then two
    unsigned bytes; [struct.error] unless [buf] has exactly 4 bytes. *)
Definition unpack_HBB (buf : list Byte.byte) : result (Z * Z * Z) :=
  match buf with
  | [b0; b1; b2; b3] =>
      Ok (byte_val b0 + 256 * byte_val b1, byte_val b2, byte_val b3)
  | _ => Raise StructError
  end.

Definition engine_payload_is_plausible (rpm temp fuel : Z) : bool :=
  if negb ((0 <=? rpm) && (rpm <=? 8000)) then false
  else if negb ((-40 <=? temp) && (temp <=? 150)) then false
  else if negb ((0 <=? fuel) && (fuel <=? 100)) then false
  else true.

(** ** The sliding window *)

Definition Qltb (x y : Q) : bool := negb (Qle_bool y x).

(** The integer nearest to [x]; half-way between two integers, the even
    one. *)
Definition round_half_even (x : Q) : Z :=
  let f := Qfloor x in
  match (x - inject_Z f ?= 1 # 2)%Q with
  | Lt => f
  | Gt => f + 1
  | Eq => if Z.even f then f else f + 1
  end.

(** The exponent of the binade of a positive [q]: the [e] with
    [2^e <= q < 2^(e+1)]. *)
Definition ilog2 (q : Q) : Z :=
  let k := Z.log2 (Qnum q) - Z.log2 (Zpos (Qden q)) in
  if Qle_bool (2 ^ k) q then k else k - 1.

(** Rounding to binary64: the significand is scaled to 53 bits and rounded
    to nearest, ties to even. *)
Definition round_binary64 (q : Q) : Q :=
  if Qeq_bool q 0 then 0%Q
  else let e := ilog2 (Qabs q) - 52 in
       (inject_Z (round_half_even (q / 2 ^ e)) * 2 ^ e)%Q.

(** The floating-point subtraction [x - y]. *)
Definition float_sub (x y : Q) : Q := round_binary64 (x - y).

(** The test of the list comprehension, [now - ts < 1.0]. *)
Definition in_last_second (now ts : Q) : bool := Qltb (float_sub now ts) 1.

(** The midpoint of [1.0] and the float before it, [1 - 2^-54]: the ages
    below it are the ones whose rounding is below [1.0]. *)
Definition effective_window : Q := 1 - (1 # 18014398509481984).

(** Lines 121-127 of the gateway loop (the same statements as in the
    first version of the gateway, with its single global limit): fetch the
    list of the identifier (empty on first sighting), keep the timestamps
    younger than one second, append [now], store the list back, and count
    it. *)
Definition record_and_count (tbl : gmap Z (list Q)) (msg_id : Z) (now : Q)
  : gmap Z (list Q) * nat :=
  let ts_list := default [] (tbl !! msg_id) in
  let ts_list := List.filter (λ ts, in_last_second now ts) ts_list in
  let ts_list := ts_list ++ [now] in
  (<[msg_id := ts_list]> tbl, length ts_list).

(** ** One iteration of the gateway loop *)

Record message := {
  arbitration_id : Z;
  data : list Byte.byte;
}.

Record gw_state := {
  policy_table : gmap Z policy_entry;
  id_timestamps : gmap Z (list Q);
}.

(** The state at gateway start: the module-level table, no timestamps. *)
Definition initial_state : gw_state :=
  {| policy_table := PER_ID_POLICY; id_timestamps := ∅ |}.

(** The line printed after [RX]: why the frame was blocked or forwarded. *)
Inductive verdict :=
| BlockedRate (lbl : string)
| BlockedImplausible
| ForwardedLegitEngine (rpm temp fuel : Z)
| ForwardedFlood
| ForwardedOther.

Inductive outcome := Forwarded | BlockedRateLimit | BlockedSemanticCheck.

Definition outcome_of (v : verdict) : outcome :=
  match v with
  | BlockedRate _ => BlockedRateLimit
  | BlockedImplausible => BlockedSemanticCheck
  | ForwardedLegitEngine _ _ _ | ForwardedFlood | ForwardedOther => Forwarded
  end.

(** The calls made to inspect the payload. *)
Inductive call :=
| CallUnpack (buf : list Byte.byte)
| CallPlausible (rpm temp fuel : Z).

Record evaluation := {
  ev_state : gw_state;
  ev_verdict : verdict;
  observed_rate : nat;
  policy_used : policy_entry;
  ev_calls : list call;
}.

(** [PER_ID_POLICY.get(msg_id, {...})].  The loop reads [max_rate] and
    [label] from the entry; it also reads [trusted], which no branch then
    tests: the payload check is keyed on [msg_id == LEGIT_ID]. *)
Definition lookup_policy (st : gw_state) (msg_id : Z) : policy_entry :=
  default default_policy (policy_table st !! msg_id).

Definition defensive_gateway_step (st : gw_state) (now : Q) (msg : message)
  : result evaluation :=
  let msg_id := arbitration_id msg in
  let policy := lookup_policy st msg_id in
  let '(tbl, rate) := record_and_count (id_timestamps st) msg_id now in
  let st' := {| policy_table := policy_table st; id_timestamps := tbl |} in
  let done v calls :=
    Ok {| ev_state := st'; ev_verdict := v; observed_rate := rate;
          policy_used := policy; ev_calls := calls |} in
  if max_rate policy <? Z.of_nat rate then
    done (BlockedRate (label policy)) []
  else if (msg_id =? LEGIT_ID) && (4 <=? length (data msg))%nat then
    let buf := take 4 (data msg) in
    '(rpm, temp, fuel) ← unpack_HBB buf;
    let calls := [CallUnpack buf; CallPlausible rpm temp fuel] in
    if negb (engine_payload_is_plausible rpm temp fuel) then
      done BlockedImplausible calls
    else
      done (ForwardedLegitEngine rpm temp fuel) calls
  else if msg_id =? FLOOD_ID then
    done ForwardedFlood []
  else
    done ForwardedOther [].

Definition ev_outcome (ev : evaluation) : outcome := outcome_of (ev_verdict ev).

(** The loop over the frames received, each with the clock reading taken at
    its receipt; the decisions are collected in order. *)
Fixpoint defensive_gateway (st : gw_state) (rx : list (Q * message))
  : result (gw_state * list evaluation) :=
  match rx with
  | [] => Ok (st, [])
  | (now, msg) :: rx' =>
      ev ← defensive_gateway_step st now msg;
      '(st', evs) ← defensive_gateway (ev_state ev) rx';
      Ok (st', ev :: evs)
  end.

Definition mk_msg (i : Z) (d : list Byte.byte) : message :=
  {| arbitration_id := i; data := d |}.

(** ** Histories of arrivals, for the window property *)

(** The timestamps at which identifier [i] arrived, oldest first. *)
Definition arrivals (i : Z) (h : list (Z * Q)) : list Q :=
  (filter (λ e, e.1 = i) h).*2.

(** The tracker after the arrivals [h], in order. *)
Definition replay (h : list (Z * Q)) (tbl : gmap Z (list Q)) : gmap Z (list Q) :=
  foldl (λ tbl e, (record_and_count tbl e.1 e.2).1) tbl h.

(** Membership in the half-open interval [(t - w, t]]. *)
Definition in_window (t w ts : Q) : bool := Qltb (t - w) ts && Qle_bool ts t.

(** What the tracker holds for an identifier with arrivals [a]: nothing
    before the first one, then the arrivals less than a second older than
    the last. *)
Definition window_of (a : list Q) : option (list Q) :=
  match last a with
  | None => None
  | Some t => Some (List.filter (in_last_second t) a)
  end.

(** ** The encoder of the engine payload *)

(** The byte of value [n], for [0 ≤ n < 256]. *)
Definition byte_of (n : Z) : Byte.byte := default Byte.x00 (Byte.of_N (Z.to_N n)).

(** [struct.pack("<HBB", rpm, coolant_temp, fuel_level)]: [struct.error]
    when a field does not fit its format, else the two bytes of [rpm], low
    byte first, then one byte for each of the other fields. *)
Definition pack_engine_data (rpm coolant_temp fuel_level : Z) : result (list Byte.byte) :=
  if negb ((0 <=? rpm) && (rpm <=? 65535)) then Raise StructError
  else if negb ((0 <=? coolant_temp) && (coolant_temp <=? 255)) then Raise StructError
  else if negb ((0 <=? fuel_level) && (fuel_level <=? 255)) then Raise StructError
  else Ok [byte_of (rpm mod 256); byte_of (rpm / 256);
           byte_of coolant_temp; byte_of fuel_level].

(** The bus demo packs the same fields with format ["<HBBxxxx"]: four pad
    bytes, written as zeros, follow the fields. *)
Module Demo.

Definition pack_engine_data (rpm coolant_temp fuel_level : Z) : result (list Byte.byte) :=
  buf ← pack_engine_data rpm coolant_temp fuel_level;
  Ok (buf ++ replicate 4 Byte.x00).

End Demo.

(** ** The loop seen from the tracker *)

(** The identifier and clock reading of each frame received. *)
Definition events (rx : list (Q * message)) : list (Z * Q) :=
  (λ x, (arbitration_id x.2, x.1)) <$> rx.

(** What a decision shows, the next state apart. *)
Definition decision_of (ev : evaluation) : verdict * nat * policy_entry * list call :=
  (ev_verdict ev, observed_rate ev, policy_used ev, ev_calls ev).

Definition for_id (i : Z) (x : Q * message) : bool := arbitration_id x.2 =? i.

Definition passed_rate_check (ev : evaluation) : bool :=
  match ev_verdict ev with
  | BlockedRate _ => false
  | _ => true
  end.

(** A frame of identifier [i] received in [[t0, t0 + effective_window)]
    that the rate check let through. *)
Definition admitted_in (i : Z) (t0 : Q) (x : (Q * message) * evaluation) : bool :=
  for_id i x.1 && Qle_bool t0 x.1.1 && Qltb x.1.1 (t0 + effective_window)
  && passed_rate_check x.2.

(** A policy table with the [trusted] flags replaced. *)
Definition retrust (g : policy_entry → bool) (tbl : gmap Z policy_entry)
  : gmap Z policy_entry :=
  (λ e, {| max_rate := max_rate e; label := label e; trusted := g e |}) <$> tbl.

(** ** The first version of the gateway

    [can_fd_defense_fair_gateway.py] before the per-ID policies: one limit
    for every identifier, and the engine payload decoded for the log
    only. *)
Module Original.

Definition MAX_FRAMES_PER_ID_PER_SEC : Z := 10.

Inductive verdict :=
| Blocked
| ForwardedLegit (rpm temp fuel : Z)
| ForwardedAttacker
| ForwardedOther.

Record evaluation := {
  o_timestamps : gmap Z (list Q);
  o_verdict : verdict;
  o_rate : nat;
}.

Definition defensive_gateway_step (id_timestamps : gmap Z (list Q)) (now : Q)
  (msg : message) : result evaluation :=
  let msg_id := arbitration_id msg in
  let '(tbl, rate) := record_and_count id_timestamps msg_id now in
  let done v := Ok {| o_timestamps := tbl; o_verdict := v; o_rate := rate |} in
  if MAX_FRAMES_PER_ID_PER_SEC <? Z.of_nat rate then
    done Blocked
  else if (msg_id =? LEGIT_ID) && (4 <=? length (data msg))%nat then
    '(rpm, temp, fuel) ← unpack_HBB (take 4 (data msg));
    done (ForwardedLegit rpm temp fuel)
  else if msg_id =? FLOOD_ID then
    done ForwardedAttacker
  else
    done ForwardedOther.

Fixpoint defensive_gateway (id_timestamps : gmap Z (list Q)) (rx : list (Q * message))
  : result (gmap Z (list Q) * list evaluation) :=
  match rx with
  | [] => Ok (id_timestamps, [])
  | (now, msg) :: rx' =>
      o ← defensive_gateway_step id_timestamps now msg;
      '(tbl, os) ← defensive_gateway (o_timestamps o) rx';
      Ok (tbl, o :: os)
  end.

End Original.

(** ** The receiver without defence

    [receiver_insecure] of [can_fd_attack_flood_dos.py]: every frame is
    logged, and the frames of the two known identifiers are counted. *)
Module Attack.

Inductive rx_line :=
| LegitDecoded (rpm temp fuel : Z)
| LegitRaw (payload : list Byte.byte)
| AttackLine (payload : list Byte.byte)
| OtherLine (payload : list Byte.byte).

Record counters := {
  count_legit : nat;
  count_attack : nat;
}.

Definition receiver_insecure_step (c : counters) (msg : message)
  : result (counters * rx_line) :=
  let msg_id := arbitration_id msg in
  if msg_id =? LEGIT_ID then
    let c := {| count_legit := S (count_legit c); count_attack := count_attack c |} in
    if (4 <=? length (data msg))%nat then
      '(rpm, temp, fuel) ← unpack_HBB (take 4 (data msg));
      Ok (c, LegitDecoded rpm temp fuel)
    else
      Ok (c, LegitRaw (data msg))
  else if msg_id =? FLOOD_ID then
    Ok ({| count_legit := count_legit c; count_attack := S (count_attack c) |},
        AttackLine (data msg))
  else
    Ok (c, OtherLine (data msg)).

Fixpoint receiver_insecure_from (c : counters) (rx : list message)
  : result (counters * list rx_line) :=
  match rx with
  | [] => Ok (c, [])
  | msg :: rx' =>
      '(c1, line) ← receiver_insecure_step c msg;
      '(c2, lines) ← receiver_insecure_from c1 rx';
      Ok (c2, line :: lines)
  end.

Definition receiver_insecure (rx : list message) : result (counters * list rx_line) :=
  receiver_insecure_from {| count_legit := 0; count_attack := 0 |} rx.

End Attack.

(** * Lemmas *)

Section Rounding.

Lemma Qfloor_bounds (x : Q) : (inject_Z (Qfloor x) <= x < inject_Z (Qfloor x) + 1)%Q.
Proof.
  split; [apply Qfloor_le|].
  pose proof (Qlt_floor x) as H. rewrite inject_Z_plus in H. exact H.
Qed.

Lemma round_half_even_cases (x : Q) :
  let f := Qfloor x in
  (round_half_even x = f ∧ (x - inject_Z f <= 1 # 2)%Q)
  ∨ (round_half_even x = f + 1 ∧ (1 # 2 <= x - inject_Z f)%Q
     ∧ ((x - inject_Z f == 1 # 2)%Q → Z.even f = false)).
Proof.
  intros f. unfold round_half_even. fold f.
  destruct (x - inject_Z f ?= 1 # 2)%Q eqn:Hc.
  - apply Qeq_alt in Hc. destruct (Z.even f) eqn:He.
    + left. split; [done|]. rewrite Hc. apply Qle_refl.
    + right. split; [done|]. split; [rewrite Hc; apply Qle_refl | done].
  - apply Qlt_alt in Hc. left. split; [done | by apply Qlt_le_weak].
  - apply Qgt_alt in Hc. right. split; [done|]. split; [by apply Qlt_le_weak|].
    intros Heq. rewrite Heq in Hc. by apply Qlt_irrefl in Hc.
Qed.

Lemma round_half_even_ge (x : Q) (n : Z) : (inject_Z n <= x)%Q → n ≤ round_half_even x.
Proof.
  intros Hn. apply Qfloor_resp_le in Hn. rewrite Qfloor_Z in Hn.
  destruct (round_half_even_cases x) as [[-> _]|[-> _]]; lia.
Qed.

Lemma round_half_even_le (x : Q) (n : Z) : (x <= inject_Z n)%Q → round_half_even x ≤ n.
Proof.
  intros Hn. pose proof (Qfloor_bounds x) as [Hlo Hhi].
  assert (Hf : Qfloor x ≤ n) by (rewrite Zle_Qle; lra).
  destruct (round_half_even_cases x) as [[-> _]|(-> & Hfrac & _)]; [done|].
  assert (Qfloor x < n); [|lia]. rewrite Zlt_Qlt. lra.
Qed.

(** Below an odd integer plus one half, and only there, the rounding stays
    at or below that integer: the tie goes up, to the even neighbour. *)
Lemma round_half_even_odd (x : Q) (n : Z) :
  Z.odd n = true → (round_half_even x ≤ n ↔ (x < inject_Z n + (1 # 2))%Q).
Proof.
  intros Hodd. pose proof (Qfloor_bounds x) as [Hlo Hhi]. split.
  - intros Hr. apply Qnot_le_lt. intros Hx.
    destruct (round_half_even_cases x) as [[Heq Hfrac]|(Heq & Hfrac & Htie)];
      rewrite Heq in Hr.
    + assert (Hfn : (inject_Z (Qfloor x) <= inject_Z n)%Q) by (by rewrite <- Zle_Qle).
      assert (Hfeq : Qfloor x = n).
      { apply Z.le_antisymm; [done|].
        rewrite <- (Qfloor_Z n). apply Qfloor_resp_le. lra. }
      assert (Hxeq : (x - inject_Z (Qfloor x) == 1 # 2)%Q).
      { rewrite Hfeq in Hfrac |- *. apply Qle_antisym; lra. }
      rewrite Hfeq in Hxeq.
      destruct (round_half_even_cases x) as [[Heq' _]|(Heq' & _ & Htie)].
      * unfold round_half_even in Heq'. rewrite Hfeq in Heq'.
        apply Qeq_alt in Hxeq. rewrite Hxeq in Heq'.
        rewrite <- Z.negb_odd, Hodd in Heq'. simpl in Heq'. lia.
      * rewrite Heq' in Heq. lia.
    + assert (Hfn : (inject_Z (Qfloor x + 1) <= inject_Z n)%Q) by (by rewrite <- Zle_Qle).
      rewrite inject_Z_plus in Hfn. change (inject_Z 1) with 1%Q in Hfn. lra.
  - intros Hx. destruct (Qlt_le_dec (inject_Z n) x) as [Hgt|Hle];
      [|by apply round_half_even_le].
    assert (Hfeq : Qfloor x = n).
    { apply Z.le_antisymm.
      - assert (Qfloor x < n + 1); [|lia]. rewrite Zlt_Qlt, inject_Z_plus. change (inject_Z 1) with 1%Q. lra.
      - assert (n < Qfloor x + 1); [|lia]. rewrite Zlt_Qlt, inject_Z_plus. change (inject_Z 1) with 1%Q. lra. }
    destruct (round_half_even_cases x) as [[-> _]|(_ & Hfrac & _)]; [lia|].
    rewrite Hfeq in Hfrac. lra.
Qed.

End Rounding.

Section Binade.

Lemma pow2_pos (z : Z) : (0 < 2 ^ z)%Q.
Proof. by apply Qpower_0_lt. Qed.

Lemma pow2_add (a b : Z) : (2 ^ (a + b) == 2 ^ a * 2 ^ b)%Q.
Proof. by apply Qpower_plus. Qed.

Lemma pow2_le (a b : Z) : a ≤ b → (2 ^ a <= 2 ^ b)%Q.
Proof. intros Hab. by apply Qpower_le_compat_l. Qed.

Lemma pow2_inject (a : Z) : 0 ≤ a → (inject_Z (2 ^ a) == 2 ^ a)%Q.
Proof. intros Ha. by rewrite Zpower_Qpower. Qed.

Lemma Qmake_mult_den (n : Z) (d : positive) : ((n # d) * inject_Z (Zpos d) == inject_Z n)%Q.
Proof. unfold Qeq. simpl. lia. Qed.

(** [ilog2 q] is the exponent of the binade of [q]. *)
Lemma ilog2_spec (q : Q) :
  (0 < q)%Q → (2 ^ ilog2 q <= q)%Q ∧ (q < 2 ^ (ilog2 q + 1))%Q.
Proof.
  intros Hq. destruct q as [n d].
  assert (Hn : 0 < n) by (unfold Qlt in Hq; simpl in Hq; lia).
  set (a := Z.log2 n). set (b := Z.log2 (Zpos d)).
  assert (Ha : 0 ≤ a) by apply Z.log2_nonneg.
  assert (Hb : 0 ≤ b) by apply Z.log2_nonneg.
  destruct (Z.log2_spec n Hn) as [Hn1 Hn2]. fold a in Hn1, Hn2.
  destruct (Z.log2_spec (Zpos d) eq_refl) as [Hd1 Hd2]. fold b in Hd1, Hd2.
  rewrite Zle_Qle, pow2_inject in Hn1, Hd1 by done.
  rewrite Zlt_Qlt, pow2_inject in Hn2, Hd2 by lia.
  pose proof (Qmake_mult_den n d) as Hnd.
  assert (HD : (0 < inject_Z (Zpos d))%Q) by (unfold Qlt; simpl; lia).
  (* upper bound with k = a - b *)
  assert (Hup : (n # d < 2 ^ (a - b + 1))%Q).
  { apply (Qmult_lt_r _ _ _ HD). rewrite Hnd.
    eapply Qlt_le_trans; [exact Hn2|].
    replace (Z.succ a) with ((a - b + 1) + b) by lia. rewrite pow2_add.
    apply Qmult_le_l; [apply pow2_pos | done]. }
  assert (Hlow : (2 ^ (a - b - 1) <= n # d)%Q).
  { apply (Qmult_le_r _ _ _ HD). rewrite Hnd.
    eapply Qle_trans; [|exact Hn1].
    replace a with ((a - b - 1) + Z.succ b) at 2 by lia. rewrite pow2_add.
    apply Qmult_le_l; [apply pow2_pos | by apply Qlt_le_weak]. }
  unfold ilog2. cbn [Qnum Qden]. fold a b.
  destruct (Qle_bool (2 ^ (a - b)) (n # d)) eqn:Hk.
  - apply Qle_bool_iff in Hk. done.
  - split; [done|]. replace (a - b - 1 + 1) with (a - b) by lia.
    apply Qnot_le_lt. intros Hle. apply Qle_bool_iff in Hle. congruence.
Qed.

End Binade.

Section Threshold.

Lemma round_binary64_nonpos (q : Q) : (q <= 0)%Q → (round_binary64 q <= 0)%Q.
Proof.
  intros Hq. unfold round_binary64. destruct (Qeq_bool q 0); [apply Qle_refl|].
  set (e := ilog2 (Qabs q) - 52).
  pose proof (pow2_pos e) as He.
  assert (Hx : (q / 2 ^ e <= inject_Z 0)%Q).
  { apply Qle_shift_div_r; [done|]. change (inject_Z 0) with 0%Q. lra. }
  apply round_half_even_le in Hx. rewrite Zle_Qle in Hx.
  change (inject_Z 0) with 0%Q in Hx.
  rewrite <- (Qmult_0_l (2 ^ e)). apply Qmult_le_compat_r; [done | by apply Qlt_le_weak].
Qed.

(** The rounded value is below 1 exactly when the number is below the
    midpoint of 1 and its predecessor, [1 - 2^-54]: at the midpoint the tie
    goes to 1, whose significand is even. *)
Lemma round_binary64_lt_1 (q : Q) :
  (round_binary64 q < 1)%Q ↔ (q < effective_window)%Q.
Proof.
  assert (Hw : (effective_window == 1 - (1 # 18014398509481984))%Q) by reflexivity.
  destruct (Qlt_le_dec 0 q) as [Hpos|Hneg].
  2:{ split; intros _; [lra|]. pose proof (round_binary64_nonpos q Hneg). lra. }
  unfold round_binary64.
  destruct (Qeq_bool q 0) eqn:Hz; [apply Qeq_bool_iff in Hz; lra|].
  assert (Qabs q = q) as ->.
  { destruct q as [n d]. unfold Qabs. f_equal. apply Z.abs_eq.
    unfold Qlt in Hpos. simpl in Hpos. lia. }
  destruct (ilog2_spec q Hpos) as [Hlo Hhi].
  set (L := ilog2 q) in *. set (e := L - 52).
  pose proof (pow2_pos e) as He.
  assert (Hx1 : (2 ^ 52 <= q / 2 ^ e)%Q).
  { apply Qle_shift_div_l; [done|]. rewrite <- pow2_add.
    by replace (52 + e) with L by (unfold e; lia). }
  assert (Hx2 : (q / 2 ^ e < 2 ^ 53)%Q).
  { apply Qlt_shift_div_r; [done|]. rewrite <- pow2_add.
    by replace (53 + e) with (L + 1) by (unfold e; lia). }
  set (x := (q / 2 ^ e)%Q) in *. set (m := round_half_even x).
  assert (Hm1 : 2 ^ 52 ≤ m).
  { apply round_half_even_ge. by rewrite pow2_inject. }
  assert (Hm2 : m ≤ 2 ^ 53).
  { apply round_half_even_le. rewrite pow2_inject by done. by apply Qlt_le_weak. }
  rewrite Zle_Qle, pow2_inject in Hm1, Hm2 by done.
  destruct (Z.lt_trichotomy L (-1)) as [HL|[HL|HL]].
  - (* below one half *)
    assert (Hq : (q < 1 # 2)%Q).
    { eapply Qlt_le_trans; [exact Hhi|]. change (1 # 2)%Q with (2 ^ (-1))%Q.
      apply pow2_le. lia. }
    split; intros _; [lra|].
    eapply Qle_lt_trans with (y := (2 ^ 53 * 2 ^ e)%Q).
    + apply Qmult_le_compat_r; [done | by apply Qlt_le_weak].
    + rewrite <- pow2_add. eapply Qle_lt_trans with (y := (2 ^ (-1))%Q).
      * apply pow2_le. unfold e. lia.
      * reflexivity.
  - (* the binade below one *)
    assert (He53 : (2 ^ e == 1 # 9007199254740992)%Q) by (unfold e; rewrite HL; reflexivity).
    assert (Hxq : (x == q * 9007199254740992)%Q).
    { unfold x. rewrite He53. field. }
    rewrite He53.
    assert (Hodd : Z.odd (2 ^ 53 - 1) = true) by reflexivity.
    pose proof (round_half_even_odd x (2 ^ 53 - 1) Hodd) as Hr. fold m in Hr.
    change (inject_Z (2 ^ 53 - 1)) with (9007199254740991 # 1)%Q in Hr.
    split.
    + intros Hlt. assert (Hm : m ≤ 2 ^ 53 - 1).
      { assert (m < 2 ^ 53); [|lia]. rewrite Zlt_Qlt.
        change (inject_Z (2 ^ 53)) with (9007199254740992 # 1)%Q. lra. }
      apply Hr in Hm. lra.
    + intros Hlt. assert (Hm : m ≤ 2 ^ 53 - 1) by (apply Hr; lra).
      rewrite Zle_Qle in Hm.
      change (inject_Z (2 ^ 53 - 1)) with (9007199254740991 # 1)%Q in Hm. lra.
  - (* one and above *)
    assert (Hq : (1 <= q)%Q).
    { eapply Qle_trans; [|exact Hlo]. change 1%Q with (2 ^ 0)%Q. apply pow2_le. lia. }
    split; intros Hlt; [|lra]. exfalso.
    assert (Hge : (1 <= inject_Z m * 2 ^ e)%Q); [|lra].
    eapply Qle_trans with (y := (2 ^ 52 * 2 ^ e)%Q).
    + rewrite <- pow2_add. change 1%Q with (2 ^ 0)%Q. apply pow2_le. unfold e. lia.
    + apply Qmult_le_compat_r; [done | by apply Qlt_le_weak].
Qed.

End Threshold.

Section Window.

Lemma Qltb_lt (x y : Q) : Qltb x y = true ↔ (x < y)%Q.
Proof.
  unfold Qltb. rewrite negb_true_iff, <- not_true_iff_false, Qle_bool_iff.
  split; [apply Qnot_le_lt | apply Qlt_not_le].
Qed.

Lemma effective_window_bounds : (0 < effective_window)%Q ∧ (effective_window < 1)%Q.
Proof. split; reflexivity. Qed.

(** The code keeps a timestamp exactly when its age is below
    [effective_window]. *)
Lemma in_last_second_spec (now ts : Q) :
  in_last_second now ts = true ↔ (now - ts < effective_window)%Q.
Proof. unfold in_last_second, float_sub. by rewrite Qltb_lt, round_binary64_lt_1. Qed.

Lemma in_last_second_refl (t : Q) : in_last_second t t = true.
Proof. apply in_last_second_spec. pose proof effective_window_bounds. lra. Qed.

Lemma in_last_second_mono (t0 t ts : Q) :
  (t0 <= t)%Q → in_last_second t ts = true → in_last_second t0 ts = true.
Proof. rewrite !in_last_second_spec. lra. Qed.

Lemma in_window_spec (t w ts : Q) :
  in_window t w ts = true ↔ (t - w < ts)%Q ∧ (ts <= t)%Q.
Proof. unfold in_window. by rewrite andb_true_iff, Qltb_lt, Qle_bool_iff. Qed.

Lemma in_window_last_second (t ts : Q) :
  (ts <= t)%Q → in_window t effective_window ts = in_last_second t ts.
Proof.
  intros Hle. apply eq_true_iff_eq.
  rewrite in_window_spec, in_last_second_spec. split; [intros [? _] | split]; lra.
Qed.

Lemma filter_filter_imp {A} (p q : A → bool) (l : list A) :
  (∀ x, p x = true → q x = true) →
  List.filter p (List.filter q l) = List.filter p l.
Proof.
  intros Himp. induction l as [|x l IH]; simpl; [done|].
  destruct (q x) eqn:Hq, (p x) eqn:Hp; simpl; rewrite ?Hp, ?IH; try done.
  apply Himp in Hp. congruence.
Qed.

Lemma arrivals_snoc (i : Z) (h : list (Z * Q)) (e : Z * Q) :
  arrivals i (h ++ [e]) = arrivals i h ++ (if decide (e.1 = i) then [e.2] else []).
Proof.
  unfold arrivals. rewrite filter_app, fmap_app. f_equal.
  rewrite filter_cons, filter_nil. by case_decide.
Qed.

Lemma replay_snoc (h : list (Z * Q)) (e : Z * Q) (tbl : gmap Z (list Q)) :
  replay (h ++ [e]) tbl = (record_and_count (replay h tbl) e.1 e.2).1.
Proof. unfold replay. by rewrite foldl_app. Qed.

Lemma sorted_snoc_inv (a : list Q) (t : Q) :
  Sorted Qle (a ++ [t]) → Sorted Qle a ∧ ∀ ts, ts ∈ a → (ts <= t)%Q.
Proof.
  intros Hs.
  assert (Transitive Qle) by (intros x y z; apply Qle_trans).
  apply Sorted_StronglySorted in Hs; [|done].
  apply StronglySorted_app in Hs as (Hle & Ha & _). split.
  - by apply StronglySorted_Sorted.
  - intros ts Hts. apply Hle; [done | set_solver].
Qed.

Lemma window_of_snoc (a : list Q) (t : Q) :
  Sorted Qle (a ++ [t]) →
  List.filter (in_last_second t) (default [] (window_of a)) ++ [t]
  = List.filter (in_last_second t) (a ++ [t]).
Proof.
  intros [_ Hle]%sorted_snoc_inv.
  rewrite List.filter_app. simpl. rewrite in_last_second_refl. f_equal.
  unfold window_of. destruct (last a) as [t0|] eqn:Hlast; simpl.
  - apply filter_filter_imp. intros ts. apply in_last_second_mono, Hle.
    by apply last_Some_elem_of.
  - by apply last_None in Hlast as ->.
Qed.

End Window.

Section Tracker.

Lemma window_of_last (a : list Q) (t : Q) :
  window_of (a ++ [t]) = Some (List.filter (in_last_second t) (a ++ [t])).
Proof. unfold window_of. by rewrite last_snoc. Qed.

(** From the empty tracker, the list stored for an identifier is the
    window of its arrivals. *)
Lemma replay_lookup (h : list (Z * Q)) (i : Z) :
  Sorted Qle (arrivals i h) → replay h ∅ !! i = window_of (arrivals i h).
Proof.
  induction h as [|e h IH] using rev_ind; intros Hs; [done|].
  rewrite replay_snoc. rewrite arrivals_snoc in Hs |- *.
  unfold record_and_count; simpl. case_decide as He.
  - subst i. rewrite lookup_insert_eq, window_of_last, <- window_of_snoc by done.
    rewrite IH; [done|]. by apply sorted_snoc_inv in Hs as [? _].
  - rewrite app_nil_r in *. rewrite lookup_insert_ne by done. by apply IH.
Qed.

Lemma record_and_count_other (tbl : gmap Z (list Q)) (i j : Z) (now : Q) :
  i ≠ j → (record_and_count tbl i now).1 !! j = tbl !! j.
Proof. intros Hne. unfold record_and_count; simpl. by rewrite lookup_insert_ne. Qed.

Lemma record_and_count_first (tbl : gmap Z (list Q)) (i : Z) (now : Q) :
  tbl !! i = None → (record_and_count tbl i now).2 = 1%nat.
Proof. intros Hnone. unfold record_and_count; simpl. by rewrite Hnone. Qed.

End Tracker.

(** * The claims *)

(** C2, as stated, fails.  The clock readings are the floats 0.2 and 1.2:
    their exact difference is [1 - 2^-54], which the floating-point
    subtraction rounds to [1.0], so the earlier reading is purged and the
    count is 1, while both readings lie in the half-open interval
    (t - 1, t]. *)
Lemma window_count_rounding :
  let t0 := 3602879701896397 # 18014398509481984 in
  let t := 5404319552844595 # 4503599627370496 in
  let h := [(FLOOD_ID, t0)] in
  Sorted Qle (arrivals FLOOD_ID h ++ [t])
  ∧ (t - t0 == effective_window)%Q
  ∧ (float_sub t t0 == 1)%Q
  ∧ (record_and_count (replay h ∅) FLOOD_ID t).2 = 1%nat
  ∧ length (List.filter (in_window t 1) (arrivals FLOOD_ID h ++ [t])) = 2%nat.
Proof.
  intros t0 t h. split.
  { repeat (constructor; try (intro; discriminate)). }
  repeat split; vm_compute; reflexivity.
Qed.

(** C2, amended.  Start from the empty tracker and let frames of any
    identifiers arrive, the timestamps of identifier [i] never decreasing.
    A further arrival of [i] at time [t] stores, for [i], the timestamps it
    held whose floating-point age is below [1.0] followed by [t]; every
    stored timestamp then has an age below [effective_window], the
    midpoint [1 - 2^-54] under which the rounded age is below [1.0].  The
    count returned is the number of arrivals of [i], this one included, in
    the half-open interval (t - effective_window, t]; it is the number in
    (t - 1, t] when no arrival has an age from [effective_window] up to 1.
    On the first sighting of [i] the count is 1. *)
Theorem record_and_count_window (h : list (Z * Q)) (i : Z) (t : Q) :
  Sorted Qle (arrivals i h ++ [t]) →
  let tbl := replay h ∅ in
  let stored := default [] (tbl !! i) in
  let r := record_and_count tbl i t in
  r.1 !! i = Some (List.filter (in_last_second t) stored ++ [t])
  ∧ Forall (λ ts, (float_sub t ts < 1)%Q ∧ (t - ts < effective_window)%Q)
      (default [] (r.1 !! i))
  ∧ r.2 = length (List.filter (in_window t effective_window) (arrivals i h ++ [t]))
  ∧ (Forall (λ ts, ¬ (effective_window <= t - ts ∧ t - ts < 1)%Q) (arrivals i h) →
     r.2 = length (List.filter (in_window t 1) (arrivals i h ++ [t])))
  ∧ (tbl !! i = None → r.2 = 1%nat).
Proof.
  intros Hs tbl stored r.
  assert (Hnew : r.1 !! i = Some (List.filter (in_last_second t) stored ++ [t])).
  { unfold r, record_and_count; simpl. by rewrite lookup_insert_eq. }
  pose proof effective_window_bounds as [Hw0 Hw1].
  destruct (sorted_snoc_inv _ _ Hs) as [Hsa Hle].
  assert (Hcount : r.2 = length (List.filter (in_last_second t) (arrivals i h ++ [t]))).
  { rewrite <- window_of_snoc by done. unfold r, record_and_count; simpl.
    unfold stored, tbl. by rewrite replay_lookup. }
  assert (Hin_le : ∀ ts, In ts (arrivals i h ++ [t]) → (ts <= t)%Q).
  { intros ts Hin. apply List.in_app_or in Hin as [Hin|[<-|[]]]; [|lra].
    by apply Hle, list_elem_of_In. }
  split; [done|]. split; [|split; [|split]].
  - rewrite Hnew; simpl.
    assert (Hfresh : ∀ ts, in_last_second t ts = true →
                     (float_sub t ts < 1)%Q ∧ (t - ts < effective_window)%Q).
    { intros ts Hts. split; [by apply Qltb_lt | by apply in_last_second_spec]. }
    apply Forall_app. split.
    + apply Forall_forall. intros ts [_ Hts]%list_elem_of_In%List.filter_In. by apply Hfresh.
    + apply Forall_singleton. apply Hfresh, in_last_second_refl.
  - rewrite Hcount. f_equal. apply List.filter_ext_in. intros ts Hin. symmetry.
    by apply in_window_last_second, Hin_le.
  - intros Hgap. rewrite Hcount. f_equal. apply List.filter_ext_in. intros ts Hin.
    apply eq_true_iff_eq. rewrite in_last_second_spec, in_window_spec.
    pose proof (Hin_le ts Hin) as Hts.
    apply List.in_app_or in Hin as [Hin|[<-|[]]].
    + apply list_elem_of_In in Hin.
      pose proof (proj1 (Forall_forall _ _) Hgap ts Hin) as Hno. simpl in Hno.
      split; [intros ?; split; lra|]. intros [Hlt _].
      apply Qnot_le_lt. intros Hge. apply Hno. split; lra.
    + split; [intros _; split; lra | intros _; lra].
  - apply record_and_count_first.
Qed.

Lemma record_and_count_window_witness :
  let h := [(0x200, 0%Q); (0x001, 1 # 8); (0x200, 1 # 2); (0x200, 9 # 8)] in
  Sorted Qle (arrivals 0x200 h ++ [3 # 2])
  ∧ (record_and_count (replay h ∅) 0x200 (3 # 2)).2 = 2%nat.
Proof.
  intros h.
  assert (Hs : Sorted Qle (arrivals 0x200 h ++ [3 # 2])).
  { repeat (constructor; try (intro; discriminate)). }
  split; [exact Hs|].
  destruct (record_and_count_window h 0x200 (3 # 2) Hs) as (_ & _ & Hn & _).
  rewrite Hn. reflexivity.
Defined.

Section Payload.

Lemma byte_val_range (b : Byte.byte) : 0 ≤ byte_val b < 256.
Proof. unfold byte_val. pose proof (Byte.to_N_bounded b). lia. Qed.

(** A payload of at least four bytes, cut to its first four. *)
Lemma take_4_long (d : list Byte.byte) :
  (4 ≤ length d)%nat → ∃ b0 b1 b2 b3 rest,
    d = b0 :: b1 :: b2 :: b3 :: rest ∧ take 4 d = [b0; b1; b2; b3].
Proof.
  intros Hlen. destruct d as [|b0 [|b1 [|b2 [|b3 rest]]]]; simpl in Hlen; try lia.
  by exists b0, b1, b2, b3, rest.
Qed.

Lemma unpack_HBB_take_4 (d : list Byte.byte) :
  (4 ≤ length d)%nat → ∃ rpm temp fuel,
    unpack_HBB (take 4 d) = Ok (rpm, temp, fuel)
    ∧ 0 ≤ rpm < 65536 ∧ 0 ≤ temp < 256 ∧ 0 ≤ fuel < 256.
Proof.
  intros (b0 & b1 & b2 & b3 & rest & _ & ->)%take_4_long. simpl.
  pose proof (byte_val_range b0). pose proof (byte_val_range b1).
  pose proof (byte_val_range b2). pose proof (byte_val_range b3).
  eexists _, _, _. split; [done|]. lia.
Qed.

Lemma engine_payload_is_plausible_true (rpm temp fuel : Z) :
  engine_payload_is_plausible rpm temp fuel = true ↔
  (0 ≤ rpm ≤ 8000) ∧ (-40 ≤ temp ≤ 150) ∧ (0 ≤ fuel ≤ 100).
Proof.
  unfold engine_payload_is_plausible.
  destruct (0 <=? rpm) eqn:?, (rpm <=? 8000) eqn:?, (-40 <=? temp) eqn:?,
    (temp <=? 150) eqn:?, (0 <=? fuel) eqn:?, (fuel <=? 100) eqn:?; simpl;
    split; (done || lia).
Qed.

End Payload.

(** C4. For a payload of at least four bytes, the decode of its first four
    bytes succeeds with rpm the little-endian 16-bit unsigned value of
    bytes 0 and 1, temperature the value of byte 2 and fuel the value of
    byte 3, and the plausibility check is false exactly when rpm is outside
    [0, 8000], or temperature outside [-40, 150], or fuel outside
    [0, 100]; otherwise it is true. *)
Theorem engine_validator_ranges (d : list Byte.byte) :
  (4 ≤ length d)%nat →
  ∃ b0 b1 b2 b3 rest rpm temp fuel,
    d = b0 :: b1 :: b2 :: b3 :: rest
    ∧ unpack_HBB (take 4 d) = Ok (rpm, temp, fuel)
    ∧ rpm = byte_val b0 + 256 * byte_val b1 ∧ 0 ≤ rpm < 2 ^ 16
    ∧ temp = byte_val b2 ∧ 0 ≤ temp < 2 ^ 8
    ∧ fuel = byte_val b3 ∧ 0 ≤ fuel < 2 ^ 8
    ∧ (engine_payload_is_plausible rpm temp fuel = false ↔
         ¬ (0 ≤ rpm ≤ 8000) ∨ ¬ (-40 ≤ temp ≤ 150) ∨ ¬ (0 ≤ fuel ≤ 100))
    ∧ (engine_payload_is_plausible rpm temp fuel = true ↔
         (0 ≤ rpm ≤ 8000) ∧ (-40 ≤ temp ≤ 150) ∧ (0 ≤ fuel ≤ 100)).
Proof.
  intros (b0 & b1 & b2 & b3 & rest & Hd & Htake)%take_4_long.
  exists b0, b1, b2, b3, rest. eexists _, _, _.
  rewrite Htake. simpl. split; [done|]. split; [done|].
  pose proof (byte_val_range b0). pose proof (byte_val_range b1).
  pose proof (byte_val_range b2). pose proof (byte_val_range b3).
  repeat (split; [first [done | lia]|]).
  rewrite <- not_true_iff_false, engine_payload_is_plausible_true.
  split; [lia | done].
Qed.

Lemma engine_validator_ranges_witness :
  let d := [Byte.x28; Byte.x23; Byte.x5a; Byte.x46; Byte.xff] in
  (4 ≤ length d)%nat
  ∧ unpack_HBB (take 4 d) = Ok (9000, 90, 70)
  ∧ engine_payload_is_plausible 9000 90 70 = false.
Proof.
  intros d.
  assert (Hlen : (4 ≤ length d)%nat) by (simpl; lia).
  split; [exact Hlen|].
  destruct (engine_validator_ranges d Hlen)
    as (b0 & b1 & b2 & b3 & rest & rpm & temp & fuel & Hd & Hu & -> & _ & -> & _ & -> & _ & Hf & _).
  injection Hd as <- <- <- <- <-.
  split; [exact Hu|]. apply Hf. left. simpl. vm_compute. intros [_ Hc]. apply Hc. reflexivity.
Defined.

(** C10. The decoded temperature is an unsigned byte, so it lies in
    [0, 255] and the test [-40 <= temp] always holds; for a payload of at
    least four bytes the plausibility check accepts exactly when
    rpm ≤ 8000, temperature ≤ 150 and fuel ≤ 100. *)
Theorem temperature_lower_bound_dead (d : list Byte.byte) :
  (4 ≤ length d)%nat →
  ∃ rpm temp fuel,
    unpack_HBB (take 4 d) = Ok (rpm, temp, fuel)
    ∧ 0 ≤ temp ≤ 255
    ∧ (-40 <=? temp) = true
    ∧ (engine_payload_is_plausible rpm temp fuel = true ↔
         rpm ≤ 8000 ∧ temp ≤ 150 ∧ fuel ≤ 100).
Proof.
  intros (rpm & temp & fuel & Hu & Hrpm & Htemp & Hfuel)%unpack_HBB_take_4.
  exists rpm, temp, fuel. split; [done|]. split; [lia|]. split; [lia|].
  rewrite engine_payload_is_plausible_true. lia.
Qed.

Lemma temperature_lower_bound_dead_witness :
  let d := [Byte.x40; Byte.x1f; Byte.xd8; Byte.x64] in
  (4 ≤ length d)%nat
  ∧ unpack_HBB (take 4 d) = Ok (8000, 216, 100)
  ∧ engine_payload_is_plausible 8000 216 100 = false.
Proof.
  intros d.
  assert (Hlen : (4 ≤ length d)%nat) by (simpl; lia).
  split; [exact Hlen|].
  destruct (temperature_lower_bound_dead d Hlen) as (rpm & temp & fuel & Hu & _ & _ & Hacc).
  vm_compute in Hu. injection Hu as <- <- <-.
  split; [reflexivity|].
  apply not_true_iff_false. intros Ht%Hacc. lia.
Defined.

Section Step.

Local Arguments Nat.leb : simpl never.
Local Arguments Z.ltb : simpl never.
Local Arguments Z.eqb : simpl never.

Lemma PER_ID_POLICY_unfold :
  PER_ID_POLICY =
  <[FLOOD_ID := {| max_rate := 10; label := "UNTRUSTED_FLOOD"%string; trusted := false |}]>
    (<[LEGIT_ID := {| max_rate := 50; label := "LEGIT_ENGINE"%string; trusted := true |}]> ∅).
Proof. reflexivity. Qed.

Lemma PER_ID_POLICY_None (i : Z) :
  PER_ID_POLICY !! i = None ↔ i ≠ LEGIT_ID ∧ i ≠ FLOOD_ID.
Proof.
  rewrite PER_ID_POLICY_unfold, !lookup_insert_None, lookup_empty.
  split; [intros [[_ ?] ?] | intros [? ?]]; auto.
Qed.

(** The step always returns; it replaces the tracker by the one
    [record_and_count] yields, reports its count and the policy looked
    up, and leaves the policy table as it was. *)
Lemma step_returns (st : gw_state) (now : Q) (msg : message) :
  let rc := record_and_count (id_timestamps st) (arbitration_id msg) now in
  ∃ v calls,
    defensive_gateway_step st now msg =
    Ok {| ev_state := {| policy_table := policy_table st; id_timestamps := rc.1 |};
          ev_verdict := v; observed_rate := rc.2;
          policy_used := lookup_policy st (arbitration_id msg);
          ev_calls := calls |}.
Proof.
  intros rc. unfold defensive_gateway_step. fold rc. destruct rc as [tbl rate]. simpl.
  destruct (_ <? _); [by eexists _, _|].
  destruct (_ && _) eqn:Hengine.
  - apply andb_true_iff in Hengine as [_ Hlen].
    apply Nat.leb_le, take_4_long in Hlen as (b0 & b1 & b2 & b3 & rest & _ & ->).
    simpl. destruct (engine_payload_is_plausible _ _ _); simpl; by eexists _, _.
  - destruct (_ =? FLOOD_ID); by eexists _, _.
Qed.

(** The step on a frame over its rate limit. *)
Lemma step_blocked_rate (st : gw_state) (now : Q) (msg : message) :
  let policy := lookup_policy st (arbitration_id msg) in
  let rc := record_and_count (id_timestamps st) (arbitration_id msg) now in
  max_rate policy < Z.of_nat rc.2 →
  defensive_gateway_step st now msg =
  Ok {| ev_state := {| policy_table := policy_table st; id_timestamps := rc.1 |};
        ev_verdict := BlockedRate (label policy); observed_rate := rc.2;
        policy_used := policy; ev_calls := [] |}.
Proof.
  intros policy rc Hrate. unfold defensive_gateway_step. fold rc policy.
  destruct rc as [tbl rate]. simpl in *.
  by apply Z.ltb_lt in Hrate as ->.
Qed.

(** A frame that passes the rate test and is not decoded: another
    identifier than [LEGIT_ID], or fewer than four bytes. *)
Lemma step_no_engine_branch (st : gw_state) (now : Q) (msg : message) :
  let policy := lookup_policy st (arbitration_id msg) in
  let rc := record_and_count (id_timestamps st) (arbitration_id msg) now in
  Z.of_nat rc.2 ≤ max_rate policy →
  arbitration_id msg ≠ LEGIT_ID ∨ (length (data msg) < 4)%nat →
  defensive_gateway_step st now msg =
  Ok {| ev_state := {| policy_table := policy_table st; id_timestamps := rc.1 |};
        ev_verdict := if arbitration_id msg =? FLOOD_ID
                      then ForwardedFlood else ForwardedOther;
        observed_rate := rc.2; policy_used := policy; ev_calls := [] |}.
Proof.
  intros policy rc Hrate Hno. unfold defensive_gateway_step. fold rc policy.
  destruct rc as [tbl rate]. simpl in *.
  apply Z.ltb_ge in Hrate as ->.
  assert ((arbitration_id msg =? LEGIT_ID) && (4 <=? length (data msg))%nat = false)
    as ->.
  { apply andb_false_iff. destruct Hno as [Hid|Hlen];
      [left; by apply Z.eqb_neq | right; by apply Nat.leb_gt]. }
  by destruct (_ =? FLOOD_ID).
Qed.

End Step.

Section Engine.

Local Arguments Nat.leb : simpl never.
Local Arguments Z.ltb : simpl never.
Local Arguments Z.eqb : simpl never.

(** A [LEGIT_ID] frame of at least four bytes that passes the rate test is
    decoded and checked. *)
Lemma step_engine_branch (st : gw_state) (now : Q) (msg : message) :
  let policy := lookup_policy st (arbitration_id msg) in
  let rc := record_and_count (id_timestamps st) (arbitration_id msg) now in
  Z.of_nat rc.2 ≤ max_rate policy →
  arbitration_id msg = LEGIT_ID →
  (4 ≤ length (data msg))%nat →
  ∃ rpm temp fuel,
    unpack_HBB (take 4 (data msg)) = Ok (rpm, temp, fuel)
    ∧ defensive_gateway_step st now msg =
      Ok {| ev_state := {| policy_table := policy_table st; id_timestamps := rc.1 |};
            ev_verdict := if engine_payload_is_plausible rpm temp fuel
                          then ForwardedLegitEngine rpm temp fuel
                          else BlockedImplausible;
            observed_rate := rc.2; policy_used := policy;
            ev_calls := [CallUnpack (take 4 (data msg)); CallPlausible rpm temp fuel] |}.
Proof.
  intros policy rc Hrate Hid Hlen.
  destruct (unpack_HBB_take_4 _ Hlen) as (rpm & temp & fuel & Hu & _).
  exists rpm, temp, fuel. split; [done|].
  unfold defensive_gateway_step. fold rc policy.
  destruct rc as [tbl rate]. simpl in *.
  apply Z.ltb_ge in Hrate as ->.
  apply Z.eqb_eq in Hid as ->. apply Nat.leb_le in Hlen as ->. simpl.
  rewrite Hu. simpl. by destruct (engine_payload_is_plausible _ _ _).
Qed.

(** The loop returns on every sequence of frames, with one decision per
    frame. *)
Lemma defensive_gateway_returns (rx : list (Q * message)) (st : gw_state) :
  returns (defensive_gateway st rx) (λ r, length r.2 = length rx).
Proof.
  revert st. induction rx as [|[now msg] rx IH]; intros st; simpl; [done|].
  destruct (step_returns st now msg) as (v & calls & ->). simpl.
  specialize (IH {| policy_table := policy_table st;
                    id_timestamps :=
                      (record_and_count (id_timestamps st) (arbitration_id msg) now).1 |}).
  destruct (defensive_gateway _ rx) as [[st' evs]|]; simpl in *; [|done].
  by rewrite IH.
Qed.

End Engine.

(** C1. Precedence of the rate limit.  When the count returned by the
    tracker for the frame exceeds the max_rate of the policy that applies
    to its identifier, the step reports the rate-limit block, with no call
    to the decoder or to the plausibility check, and the whole result is
    the same for every payload. *)
Theorem rate_limit_precedence (st : gw_state) (now : Q) (msg : message) :
  let policy := lookup_policy st (arbitration_id msg) in
  let rate := (record_and_count (id_timestamps st) (arbitration_id msg) now).2 in
  max_rate policy < Z.of_nat rate →
  returns (defensive_gateway_step st now msg)
    (λ ev, ev_outcome ev = BlockedRateLimit
           ∧ ev_verdict ev = BlockedRate (label policy)
           ∧ ev_calls ev = []
           ∧ observed_rate ev = rate
           ∧ policy_used ev = policy)
  ∧ ∀ payload : list Byte.byte,
      defensive_gateway_step st now (mk_msg (arbitration_id msg) payload)
      = defensive_gateway_step st now msg.
Proof.
  intros policy rate Hrate. split.
  - by rewrite step_blocked_rate.
  - intros payload. by rewrite !step_blocked_rate.
Qed.

Lemma rate_limit_precedence_witness :
  let st := {| policy_table := PER_ID_POLICY;
               id_timestamps := {[ LEGIT_ID := replicate 50 (1 # 2) ]} |} in
  let msg := mk_msg LEGIT_ID [Byte.x28; Byte.x23; Byte.x5a; Byte.x46] in
  max_rate (lookup_policy st LEGIT_ID)
    < Z.of_nat (record_and_count (id_timestamps st) LEGIT_ID 1).2
  ∧ returns (defensive_gateway_step st 1 msg)
      (λ ev, ev_outcome ev = BlockedRateLimit ∧ ev_calls ev = []).
Proof.
  intros st msg.
  assert (Hrate : max_rate (lookup_policy st (arbitration_id msg))
                  < Z.of_nat (record_and_count (id_timestamps st) (arbitration_id msg) 1).2)
    by (vm_compute; reflexivity).
  split; [exact Hrate|].
  destruct (rate_limit_precedence st 1 msg Hrate) as [Hret _].
  destruct (defensive_gateway_step st 1 msg); [|exact Hret].
  destruct Hret as (Ho & _ & Hc & _). split; [exact Ho | exact Hc].
Defined.

(** C3, as stated, fails: an empty [LEGIT_ID] payload at gateway start is
    within the rate limit, and it is forwarded, not blocked by the
    semantic check. *)
Lemma undersized_payload_forwarded :
  returns (defensive_gateway_step initial_state 0 (mk_msg LEGIT_ID []))
    (λ ev, policy_used ev
             = {| max_rate := 50; label := "LEGIT_ENGINE"%string; trusted := true |}
           ∧ Z.of_nat (observed_rate ev) ≤ max_rate (policy_used ev)
           ∧ ev_outcome ev = Forwarded
           ∧ ev_outcome ev ≠ BlockedSemanticCheck).
Proof. vm_compute. repeat split; discriminate. Qed.

(** C3, amended.  A [LEGIT_ID] frame with fewer than four bytes whose count
    is within the limit of its policy is forwarded, with no call to the
    decoder or to the plausibility check, and without an exception. *)
Theorem undersized_payload_not_checked (st : gw_state) (now : Q) (payload : list Byte.byte) :
  let policy := lookup_policy st LEGIT_ID in
  let rate := (record_and_count (id_timestamps st) LEGIT_ID now).2 in
  (length payload < 4)%nat →
  Z.of_nat rate ≤ max_rate policy →
  returns (defensive_gateway_step st now (mk_msg LEGIT_ID payload))
    (λ ev, ev_outcome ev = Forwarded ∧ ev_calls ev = []).
Proof.
  intros policy rate Hlen Hrate.
  rewrite step_no_engine_branch; [done | done | by right].
Qed.

Lemma undersized_payload_not_checked_witness :
  let payload := [Byte.x28; Byte.x23; Byte.x5a] in
  (length payload < 4)%nat
  ∧ Z.of_nat (record_and_count (id_timestamps initial_state) LEGIT_ID (7 # 2)).2
      ≤ max_rate (lookup_policy initial_state LEGIT_ID)
  ∧ returns (defensive_gateway_step initial_state (7 # 2) (mk_msg LEGIT_ID payload))
      (λ ev, ev_outcome ev = Forwarded ∧ ev_calls ev = []).
Proof.
  intros payload.
  assert (Hlen : (length payload < 4)%nat) by (simpl; lia).
  assert (Hrate : Z.of_nat (record_and_count (id_timestamps initial_state) LEGIT_ID (7 # 2)).2
                  ≤ max_rate (lookup_policy initial_state LEGIT_ID))
    by (vm_compute; discriminate).
  split; [exact Hlen|]. split; [exact Hrate|].
  exact (undersized_payload_not_checked initial_state (7 # 2) payload Hlen Hrate).
Defined.

(** C5. Default fallback.  With the policy table of the gateway, a frame
    whose identifier is not in the table is judged with the default policy
    (max_rate [DEFAULT_MAX_RATE], label UNKNOWN_ID, untrusted); whatever its
    payload, neither the decoder nor the plausibility check is called and
    the outcome is never the semantic block; and it is forwarded whenever
    the observed rate does not exceed the default max_rate. *)
Theorem unknown_id_default (st : gw_state) (now : Q) (msg : message) :
  policy_table st = PER_ID_POLICY →
  PER_ID_POLICY !! arbitration_id msg = None →
  returns (defensive_gateway_step st now msg)
    (λ ev, policy_used ev = default_policy
           ∧ max_rate (policy_used ev) = DEFAULT_MAX_RATE
           ∧ label (policy_used ev) = "UNKNOWN_ID"%string
           ∧ trusted (policy_used ev) = false
           ∧ ev_calls ev = []
           ∧ ev_outcome ev ≠ BlockedSemanticCheck
           ∧ (Z.of_nat (observed_rate ev) ≤ DEFAULT_MAX_RATE →
              ev_verdict ev = ForwardedOther ∧ ev_outcome ev = Forwarded)).
Proof.
  intros Htbl Hnone.
  assert (Hpol : lookup_policy st (arbitration_id msg) = default_policy).
  { unfold lookup_policy. by rewrite Htbl, Hnone. }
  apply PER_ID_POLICY_None in Hnone as [Hlegit Hflood].
  destruct (Z.lt_ge_cases
              (max_rate (lookup_policy st (arbitration_id msg)))
              (Z.of_nat (record_and_count (id_timestamps st) (arbitration_id msg) now).2))
    as [Hover|Hunder].
  - rewrite step_blocked_rate by done. simpl. rewrite Hpol in *. simpl in *.
    repeat split; try done. all: unfold DEFAULT_MAX_RATE in *; lia.
  - rewrite step_no_engine_branch; [|done|by left]. simpl. rewrite Hpol.
    apply Z.eqb_neq in Hflood as ->. done.
Qed.

Lemma unknown_id_default_witness :
  let msg := mk_msg 0x777 [Byte.xde; Byte.xad; Byte.xbe; Byte.xef] in
  policy_table initial_state = PER_ID_POLICY
  ∧ PER_ID_POLICY !! arbitration_id msg = None
  ∧ returns (defensive_gateway_step initial_state 0 msg)
      (λ ev, ev_verdict ev = ForwardedOther ∧ ev_calls ev = []
             ∧ label (policy_used ev) = "UNKNOWN_ID"%string).
Proof.
  intros msg.
  assert (Hnone : PER_ID_POLICY !! arbitration_id msg = None) by (vm_compute; reflexivity).
  split; [reflexivity|]. split; [exact Hnone|].
  pose proof (unknown_id_default initial_state 0 msg eq_refl Hnone) as Hret.
  vm_compute in Hret |- *.
  destruct Hret as (_ & _ & Hl & _ & Hc & _ & Hf).
  destruct Hf as [Hv _]; [discriminate|].
  split; [exact Hv|]. split; [exact Hc | exact Hl].
Defined.

(** C7. The step never raises.  For every state, clock reading, identifier
    and payload of any length, one step returns a decision.  The decoder
    is called only on the first four bytes of a payload of at least four
    bytes, a buffer of exactly four bytes on which it succeeds; the decoder
    can fail only on payloads that the length guard keeps away from it. *)
Theorem step_never_raises (st : gw_state) (now : Q) (msg : message) :
  returns (defensive_gateway_step st now msg)
    (λ ev, ∀ buf, CallUnpack buf ∈ ev_calls ev →
           (4 ≤ length (data msg))%nat
           ∧ buf = take 4 (data msg)
           ∧ length buf = 4%nat
           ∧ ∃ fields, unpack_HBB buf = Ok fields)
  ∧ ∀ e, unpack_HBB (take 4 (data msg)) = Raise e → (length (data msg) < 4)%nat.
Proof.
  split.
  - pose (policy := lookup_policy st (arbitration_id msg)).
    pose (rc := record_and_count (id_timestamps st) (arbitration_id msg) now).
    destruct (Z.lt_ge_cases (max_rate policy) (Z.of_nat rc.2)) as [Hover|Hunder].
    { rewrite step_blocked_rate by done. simpl. intros buf Hin. by apply elem_of_nil in Hin. }
    destruct (decide (arbitration_id msg = LEGIT_ID ∧ (4 ≤ length (data msg))%nat))
      as [[Hid Hlen]|Hno].
    + destruct (step_engine_branch st now msg Hunder Hid Hlen)
        as (rpm & temp & fuel & Hu & ->). simpl.
      intros buf [[= ->]|Hin]%elem_of_cons.
      * split; [done|]. split; [done|]. split; [|by eexists].
        rewrite length_take. lia.
      * apply elem_of_cons in Hin as [[=]|Hin]. by apply elem_of_nil in Hin.
    + rewrite step_no_engine_branch; [|done|].
      * simpl. intros buf Hin. by apply elem_of_nil in Hin.
      * destruct (decide (arbitration_id msg = LEGIT_ID)); [right|by left].
        apply Nat.nlt_ge. intros ?. apply Hno. split; [done|lia].
  - intros e Hraise. apply Nat.lt_nge. intros Hlen.
    destruct (unpack_HBB_take_4 _ Hlen) as (? & ? & ? & Hu & _). congruence.
Qed.

(** C8. The step on a frame of identifier [i] leaves the policy table
    unchanged, and the timestamp list of every other identifier [j]
    unchanged. *)
Theorem step_frame (st : gw_state) (now : Q) (msg : message) (j : Z) :
  j ≠ arbitration_id msg →
  returns (defensive_gateway_step st now msg)
    (λ ev, policy_table (ev_state ev) = policy_table st
           ∧ id_timestamps (ev_state ev) !! j = id_timestamps st !! j).
Proof.
  intros Hne. destruct (step_returns st now msg) as (v & calls & ->). simpl.
  split; [done|]. by apply record_and_count_other.
Qed.

Lemma step_frame_witness :
  let st := {| policy_table := PER_ID_POLICY;
               id_timestamps := {[ FLOOD_ID := [1 # 4; 1 # 2] ]} |} in
  let msg := mk_msg LEGIT_ID [Byte.xc4; Byte.x09; Byte.x5a; Byte.x46] in
  FLOOD_ID ≠ arbitration_id msg
  ∧ returns (defensive_gateway_step st 1 msg)
      (λ ev, policy_table (ev_state ev) = PER_ID_POLICY
             ∧ id_timestamps (ev_state ev) !! FLOOD_ID = Some [1 # 4; 1 # 2]).
Proof.
  intros st msg.
  assert (Hne : FLOOD_ID ≠ arbitration_id msg) by discriminate.
  split; [exact Hne|].
  exact (step_frame st 1 msg FLOOD_ID Hne).
Defined.

(** C9. Two frames with the same identifier, evaluated at the same clock
    reading from the same state, whose payloads have at least four bytes
    and the same first four bytes, get the same result: the bytes from
    index 4 on influence neither the decision nor the next state. *)
Theorem trailing_bytes_ignored (st : gw_state) (now : Q) (i : Z) (d1 d2 : list Byte.byte) :
  (4 ≤ length d1)%nat →
  (4 ≤ length d2)%nat →
  take 4 d1 = take 4 d2 →
  defensive_gateway_step st now (mk_msg i d1) = defensive_gateway_step st now (mk_msg i d2).
Proof.
  intros Hlen1 Hlen2 Htake. unfold defensive_gateway_step. simpl data.
  apply Nat.leb_le in Hlen1 as ->. apply Nat.leb_le in Hlen2 as ->.
  by rewrite Htake.
Qed.

Lemma trailing_bytes_ignored_witness :
  let d1 := [Byte.x28; Byte.x23; Byte.x5a; Byte.x46] in
  let d2 := [Byte.x28; Byte.x23; Byte.x5a; Byte.x46; Byte.xff; Byte.x00; Byte.x7f] in
  (4 ≤ length d1)%nat ∧ (4 ≤ length d2)%nat ∧ take 4 d1 = take 4 d2
  ∧ defensive_gateway_step initial_state 0 (mk_msg LEGIT_ID d1)
    = defensive_gateway_step initial_state 0 (mk_msg LEGIT_ID d2).
Proof.
  intros d1 d2.
  assert (H1 : (4 ≤ length d1)%nat) by (simpl; lia).
  assert (H2 : (4 ≤ length d2)%nat) by (simpl; lia).
  split; [exact H1|]. split; [exact H2|]. split; [reflexivity|].
  exact (trailing_bytes_ignored initial_state 0 LEGIT_ID d1 d2 H1 H2 eq_refl).
Defined.

Section Table.

Context {V : Type}.


End Table.



(** The floating-point subtraction of the model on pairs of floats, with
    the differences the interpreter prints: [1.2 - 0.2 = 1.0],
    [0.3 - 0.1 = 0.19999999999999998], [2.5 - 0.1 = 2.4],
    [0.001 - 0.0007 = 0.00030000000000000003],
    [0.1 - 0.3 = -0.19999999999999998] and two exact ones. *)
Example float_sub_examples :
  (float_sub (5404319552844595 # 4503599627370496) (3602879701896397 # 18014398509481984)
   == 1)%Q
  ∧ (float_sub (5404319552844595 # 18014398509481984) (3602879701896397 # 36028797018963968)
     == 7205759403792793 # 36028797018963968)%Q
  ∧ (float_sub (5 # 2) (3602879701896397 # 36028797018963968)
     == 5404319552844595 # 2251799813685248)%Q
  ∧ (float_sub (1152921504606847 # 1152921504606846976) (6456360425798343 # 9223372036854775808)
     == 2767011611056433 # 9223372036854775808)%Q
  ∧ (float_sub (3602879701896397 # 36028797018963968) (5404319552844595 # 18014398509481984)
     == - (7205759403792793 # 36028797018963968))%Q
  ∧ (float_sub (6800000003 # 4) (3399999999 # 2) == 5 # 4)%Q
  ∧ (float_sub (6755399441055745 # 2251799813685248) 2
     == 2251799813685249 # 2251799813685248)%Q.
Proof. repeat split; vm_compute; reflexivity. Qed.

(** The scenarios of the specification, run on the model. *)

Example scenario_A :
  returns (defensive_gateway initial_state
             [ (0%Q, mk_msg LEGIT_ID [Byte.xc4; Byte.x09; Byte.x5a; Byte.x46]);
               (5 # 16, mk_msg LEGIT_ID [Byte.xc4; Byte.x09; Byte.x5a; Byte.x46]);
               (5 # 8, mk_msg LEGIT_ID [Byte.xc4; Byte.x09; Byte.x5a; Byte.x46]);
               (15 # 16, mk_msg LEGIT_ID [Byte.xc4; Byte.x09; Byte.x5a; Byte.x46]);
               (5 # 4, mk_msg LEGIT_ID [Byte.xc4; Byte.x09; Byte.x5a; Byte.x46]) ])
    (λ r, ev_verdict <$> r.2 = replicate 5 (ForwardedLegitEngine 2500 90 70)
          ∧ observed_rate <$> r.2 = [1; 2; 3; 4; 4]%nat).
Proof. vm_compute. done. Qed.

Example scenario_B :
  returns (defensive_gateway initial_state
             (map (λ k : nat, (Z.of_nat k # 64, mk_msg FLOOD_ID
                                 [Byte.xde; Byte.xad; Byte.xbe; Byte.xef]))
                  (seq 0 13)))
    (λ r, ev_outcome <$> r.2
          = replicate 10 Forwarded ++ replicate 3 BlockedRateLimit).
Proof. vm_compute. done. Qed.

Example scenario_C :
  returns (defensive_gateway_step initial_state 0
             (mk_msg LEGIT_ID [Byte.x28; Byte.x23; Byte.x5a; Byte.x46]))
    (λ ev, ev_outcome ev = BlockedSemanticCheck
           ∧ ev_calls ev = [CallUnpack [Byte.x28; Byte.x23; Byte.x5a; Byte.x46];
                            CallPlausible 9000 90 70]).
Proof. vm_compute. done. Qed.

Example scenario_D :
  returns (defensive_gateway_step initial_state 0 (mk_msg 0x777 []))
    (λ ev, ev_outcome ev = Forwarded
           ∧ label (policy_used ev) = "UNKNOWN_ID"%string
           ∧ ev_calls ev = []).
Proof. vm_compute. done. Qed.

(** * Further properties *)

Section Codec.

Lemma byte_val_of (n : Z) : 0 ≤ n < 256 → byte_val (byte_of n) = n.
Proof.
  intros Hn. unfold byte_val, byte_of.
  destruct (Byte.of_N (Z.to_N n)) as [b|] eqn:Hb; simpl.
  - apply Byte.to_of_N in Hb. lia.
  - apply Byte.of_N_None_iff in Hb. lia.
Qed.

Lemma byte_of_val (b : Byte.byte) : byte_of (byte_val b) = b.
Proof. unfold byte_val, byte_of. by rewrite N2Z.id, Byte.of_to_N. Qed.

Lemma pack_engine_data_in_range (rpm t f : Z) :
  0 ≤ rpm ≤ 65535 → 0 ≤ t ≤ 255 → 0 ≤ f ≤ 255 →
  pack_engine_data rpm t f
  = Ok [byte_of (rpm mod 256); byte_of (rpm / 256); byte_of t; byte_of f].
Proof.
  intros Hrpm Ht Hf. unfold pack_engine_data.
  destruct (0 <=? rpm) eqn:?, (rpm <=? 65535) eqn:?, (0 <=? t) eqn:?,
    (t <=? 255) eqn:?, (0 <=? f) eqn:?, (f <=? 255) eqn:?; simpl; (done || lia).
Qed.

Lemma pack_engine_data_Ok (rpm t f : Z) (buf : list Byte.byte) :
  pack_engine_data rpm t f = Ok buf →
  (0 ≤ rpm ≤ 65535 ∧ 0 ≤ t ≤ 255 ∧ 0 ≤ f ≤ 255)
  ∧ buf = [byte_of (rpm mod 256); byte_of (rpm / 256); byte_of t; byte_of f].
Proof.
  unfold pack_engine_data.
  destruct (0 <=? rpm) eqn:?, (rpm <=? 65535) eqn:?, (0 <=? t) eqn:?,
    (t <=? 255) eqn:?, (0 <=? f) eqn:?, (f <=? 255) eqn:?; simpl;
    intros [= <-]. split; [lia | done].
Qed.

Lemma unpack_packed (rpm t f : Z) :
  0 ≤ rpm ≤ 65535 → 0 ≤ t ≤ 255 → 0 ≤ f ≤ 255 →
  unpack_HBB [byte_of (rpm mod 256); byte_of (rpm / 256); byte_of t; byte_of f]
  = Ok (rpm, t, f).
Proof.
  intros Hrpm Ht Hf. unfold unpack_HBB.
  rewrite !byte_val_of; [| lia | lia | | ].
  - do 3 f_equal. pose proof (Z.div_mod rpm 256). lia.
  - split; [apply Z.div_pos; lia | apply Z.div_lt_upper_bound; lia].
  - apply Z.mod_pos_bound. lia.
Qed.

End Codec.

(** X1. Encode then decode.  When the three fields fit their formats,
    [pack_engine_data] returns four bytes, and decoding them gives back
    the fields. *)
Theorem pack_unpack_roundtrip (rpm t f : Z) :
  0 ≤ rpm ≤ 65535 → 0 ≤ t ≤ 255 → 0 ≤ f ≤ 255 →
  returns (pack_engine_data rpm t f)
    (λ buf, length buf = 4%nat ∧ unpack_HBB buf = Ok (rpm, t, f)).
Proof.
  intros Hrpm Ht Hf. rewrite pack_engine_data_in_range by done. simpl.
  split; [done|]. by apply unpack_packed.
Qed.

Lemma pack_unpack_roundtrip_witness :
  0 ≤ 2500 ≤ 65535 ∧ 0 ≤ 90 ≤ 255 ∧ 0 ≤ 70 ≤ 255
  ∧ returns (pack_engine_data 2500 90 70)
      (λ buf, length buf = 4%nat ∧ unpack_HBB buf = Ok (2500, 90, 70)).
Proof.
  assert (H1 : 0 ≤ 2500 ≤ 65535) by lia.
  assert (H2 : 0 ≤ 90 ≤ 255) by lia.
  assert (H3 : 0 ≤ 70 ≤ 255) by lia.
  split; [exact H1|]. split; [exact H2|]. split; [exact H3|].
  exact (pack_unpack_roundtrip 2500 90 70 H1 H2 H3).
Defined.

(** X2. The plausibility check and the encoder disagree on negative
    temperatures: for a reading that [engine_payload_is_plausible]
    accepts, [pack_engine_data] raises exactly when the temperature is
    negative, so the readings from -40 to -1 degrees pass the check but
    cannot be sent. *)
Theorem plausible_reading_packable (rpm t f : Z) :
  engine_payload_is_plausible rpm t f = true →
  (pack_engine_data rpm t f = Raise StructError ↔ t < 0).
Proof.
  intros (Hrpm & Ht & Hf)%engine_payload_is_plausible_true. split.
  - intros Hraise. destruct (Z.lt_ge_cases t 0) as [|Hpos]; [done|].
    rewrite pack_engine_data_in_range in Hraise by lia. discriminate.
  - intros Hneg. unfold pack_engine_data.
    apply Z.leb_gt in Hneg as Hleb.
    destruct (0 <=? rpm) eqn:?, (rpm <=? 65535) eqn:?; simpl; try done.
    by rewrite Hleb.
Qed.

Lemma plausible_reading_packable_witness :
  engine_payload_is_plausible 2500 (-10) 70 = true
  ∧ pack_engine_data 2500 (-10) 70 = Raise StructError.
Proof.
  assert (Hp : engine_payload_is_plausible 2500 (-10) 70 = true) by reflexivity.
  split; [exact Hp|].
  apply (plausible_reading_packable 2500 (-10) 70 Hp). reflexivity.
Defined.

(** X3. Decode then encode.  Every buffer of four bytes decodes, and
    encoding the decoded fields gives the buffer back: the codec is a
    bijection between four-byte buffers and triples in range. *)
Theorem unpack_pack_roundtrip (buf : list Byte.byte) :
  length buf = 4%nat →
  returns (unpack_HBB buf)
    (λ '(rpm, t, f), pack_engine_data rpm t f = Ok buf).
Proof.
  intros Hlen.
  destruct buf as [|b0 [|b1 [|b2 [|b3 [|]]]]]; simpl in Hlen; try lia. simpl.
  pose proof (byte_val_range b0). pose proof (byte_val_range b1).
  pose proof (byte_val_range b2). pose proof (byte_val_range b3).
  rewrite pack_engine_data_in_range by lia.
  replace ((byte_val b0 + 256 * byte_val b1) mod 256) with (byte_val b0)
    by (apply Z.mod_unique_pos with (q := byte_val b1); lia).
  replace ((byte_val b0 + 256 * byte_val b1) / 256) with (byte_val b1)
    by (apply Z.div_unique_pos with (r := byte_val b0); lia).
  by rewrite !byte_of_val.
Qed.

Lemma unpack_pack_roundtrip_witness :
  let buf := [Byte.xde; Byte.xad; Byte.xbe; Byte.xef] in
  length buf = 4%nat
  ∧ unpack_HBB buf = Ok (44510, 190, 239)
  ∧ pack_engine_data 44510 190 239 = Ok buf.
Proof.
  intros buf. split; [reflexivity|]. split; [reflexivity|].
  exact (unpack_pack_roundtrip buf eq_refl).
Defined.

(** X5. The payload of the bus demo.  When the demo's encoder returns, its
    buffer has eight bytes: decoding it whole raises [struct.error], while
    its first four bytes, the slice the gateway decodes, give back the
    fields; the last four are zero. *)
Theorem demo_payload_needs_slice (rpm t f : Z) (buf : list Byte.byte) :
  Demo.pack_engine_data rpm t f = Ok buf →
  length buf = 8%nat
  ∧ unpack_HBB buf = Raise StructError
  ∧ unpack_HBB (take 4 buf) = Ok (rpm, t, f)
  ∧ pack_engine_data rpm t f = Ok (take 4 buf)
  ∧ drop 4 buf = replicate 4 Byte.x00.
Proof.
  unfold Demo.pack_engine_data.
  destruct (pack_engine_data rpm t f) as [b|] eqn:Hpack; simpl; [|done].
  intros [= <-]. apply pack_engine_data_Ok in Hpack as [(Hrpm & Ht & Hf) ->]. simpl.
  repeat split; try done. by apply unpack_packed.
Qed.

Lemma demo_payload_needs_slice_witness :
  let buf := [Byte.xac; Byte.x0d; Byte.x5f; Byte.x4b;
              Byte.x00; Byte.x00; Byte.x00; Byte.x00] in
  Demo.pack_engine_data 3500 95 75 = Ok buf
  ∧ unpack_HBB buf = Raise StructError
  ∧ unpack_HBB (take 4 buf) = Ok (3500, 95, 75).
Proof.
  intros buf.
  assert (Hp : Demo.pack_engine_data 3500 95 75 = Ok buf) by reflexivity.
  split; [exact Hp|].
  destruct (demo_payload_needs_slice 3500 95 75 buf Hp) as (_ & Hr & Hu & _).
  split; [exact Hr | exact Hu].
Defined.

Section Loop.

Local Arguments record_and_count : simpl never.
Local Arguments lookup_policy : simpl never.
Local Arguments Nat.leb : simpl never.
Local Arguments Z.ltb : simpl never.
Local Arguments Z.eqb : simpl never.

Lemma replay_cons (e : Z * Q) (h : list (Z * Q)) (tbl : gmap Z (list Q)) :
  replay (e :: h) tbl = replay h (record_and_count tbl e.1 e.2).1.
Proof. done. Qed.

Lemma arrivals_cons (i : Z) (e : Z * Q) (h : list (Z * Q)) :
  arrivals i (e :: h) = if decide (e.1 = i) then e.2 :: arrivals i h else arrivals i h.
Proof. unfold arrivals. rewrite filter_cons. by case_decide. Qed.

(** The loop returns, with the policy table it started from and the
    tracker [replay] builds from the identifiers and clock readings. *)
Lemma gateway_run (rx : list (Q * message)) (st : gw_state) :
  ∃ evs,
    defensive_gateway st rx =
    Ok ({| policy_table := policy_table st;
           id_timestamps := replay (events rx) (id_timestamps st) |}, evs)
    ∧ length evs = length rx.
Proof.
  revert st. induction rx as [|[now msg] rx IH]; intros st.
  - exists []. by destruct st.
  - destruct (step_returns st now msg) as (v & calls & Hstep).
    simpl. rewrite Hstep. simpl.
    edestruct IH as (evs & -> & Hlen). simpl.
    eexists. split; [reflexivity|]. simpl. by rewrite Hlen.
Qed.

Lemma defensive_gateway_app (st : gw_state) (rx1 rx2 : list (Q * message)) :
  defensive_gateway st (rx1 ++ rx2) =
  '(st1, evs1) ← defensive_gateway st rx1;
  '(st2, evs2) ← defensive_gateway st1 rx2;
  Ok (st2, evs1 ++ evs2).
Proof.
  revert st. induction rx1 as [|[now msg] rx1 IH]; intros st; simpl.
  - by destruct (defensive_gateway st rx2) as [[]|].
  - destruct (defensive_gateway_step st now msg) as [ev|]; simpl; [|done].
    rewrite IH. destruct (defensive_gateway (ev_state ev) rx1) as [[st1 evs1]|]; simpl; [|done].
    by destruct (defensive_gateway st1 rx2) as [[]|].
Qed.

(** The last frame of a stream is judged from the state the frames before
    it lead to. *)
Lemma gateway_snoc (st : gw_state) (rx : list (Q * message)) (now : Q) (msg : message) :
  let st_rx := {| policy_table := policy_table st;
                  id_timestamps := replay (events rx) (id_timestamps st) |} in
  ∃ evs ev,
    defensive_gateway st rx = Ok (st_rx, evs)
    ∧ length evs = length rx
    ∧ defensive_gateway_step st_rx now msg = Ok ev
    ∧ defensive_gateway st (rx ++ [(now, msg)]) = Ok (ev_state ev, evs ++ [ev]).
Proof.
  intros st_rx. destruct (gateway_run rx st) as (evs & Hrun & Hlen).
  destruct (step_returns st_rx now msg) as (v & calls & Hstep).
  eexists evs, _. split; [done|]. split; [done|]. split; [exact Hstep|].
  rewrite defensive_gateway_app, Hrun. simpl. fold st_rx. by rewrite Hstep.
Qed.

(** What the step reports about the rate, in every branch. *)
Lemma step_rate_verdict (st : gw_state) (now : Q) (msg : message) :
  let policy := lookup_policy st (arbitration_id msg) in
  let rc := record_and_count (id_timestamps st) (arbitration_id msg) now in
  ∃ ev,
    defensive_gateway_step st now msg = Ok ev
    ∧ observed_rate ev = rc.2
    ∧ policy_used ev = policy
    ∧ ev_state ev = {| policy_table := policy_table st; id_timestamps := rc.1 |}
    ∧ (passed_rate_check ev = false ↔ max_rate policy < Z.of_nat rc.2)
    ∧ (ev_outcome ev = BlockedRateLimit ↔ max_rate policy < Z.of_nat rc.2)
    ∧ (ev_outcome ev = BlockedSemanticCheck →
       arbitration_id msg = LEGIT_ID ∧ (4 ≤ length (data msg))%nat).
Proof.
  intros policy rc.
  destruct (Z.lt_ge_cases (max_rate policy) (Z.of_nat rc.2)) as [Hover|Hunder].
  { rewrite step_blocked_rate by done. eexists. split; [done|]. by repeat split. }
  destruct (decide (arbitration_id msg = LEGIT_ID ∧ (4 ≤ length (data msg))%nat))
    as [[Hid Hlen]|Hno].
  - destruct (step_engine_branch st now msg Hunder Hid Hlen)
      as (rpm & temp & fuel & Hu & ->).
    eexists. split; [done|]. unfold ev_outcome, passed_rate_check.
    subst policy rc. cbn [observed_rate policy_used ev_state ev_verdict].
    destruct (engine_payload_is_plausible _ _ _); cbn [outcome_of];
      repeat split; intros; first [done | lia].
  - rewrite step_no_engine_branch; [|done|].
    + eexists. split; [done|]. unfold ev_outcome, passed_rate_check.
      subst policy rc. cbn [observed_rate policy_used ev_state ev_verdict].
      destruct (_ =? FLOOD_ID); cbn [outcome_of];
        repeat split; intros; first [done | lia].
    + destruct (decide (arbitration_id msg = LEGIT_ID)); [right|by left].
      apply Nat.nlt_ge. intros ?. apply Hno. split; [done|lia].
Qed.

End Loop.

(** X4. Sender and gateway agree on the payload.  A [LEGIT_ID] frame whose
    payload is what [pack_engine_data] returns for a reading, followed by
    any further bytes, and whose count is within the limit of its policy,
    is decoded by the gateway to that reading: it is forwarded with the
    reading when [engine_payload_is_plausible] accepts it, and blocked as
    implausible otherwise. *)
Theorem packed_frame_verdict (st : gw_state) (now : Q) (rpm t f : Z)
    (buf extra : list Byte.byte) :
  pack_engine_data rpm t f = Ok buf →
  Z.of_nat (record_and_count (id_timestamps st) LEGIT_ID now).2
    ≤ max_rate (lookup_policy st LEGIT_ID) →
  returns (defensive_gateway_step st now (mk_msg LEGIT_ID (buf ++ extra)))
    (λ ev, ev_verdict ev = if engine_payload_is_plausible rpm t f
                           then ForwardedLegitEngine rpm t f
                           else BlockedImplausible).
Proof.
  intros [(Hrpm & Ht & Hf) ->]%pack_engine_data_Ok Hrate.
  edestruct (step_engine_branch st now) as (rpm' & t' & f' & Hu & ->);
    [exact Hrate | done | simpl; lia |].
  change (take 4 (data (mk_msg LEGIT_ID _))) with
    [byte_of (rpm mod 256); byte_of (rpm / 256); byte_of t; byte_of f] in Hu.
  rewrite unpack_packed in Hu by done. by injection Hu as <- <- <-.
Qed.

Lemma packed_frame_verdict_witness :
  let buf := [Byte.xc4; Byte.x09; Byte.x5a; Byte.x46] in
  pack_engine_data 2500 90 70 = Ok buf
  ∧ Z.of_nat (record_and_count (id_timestamps initial_state) LEGIT_ID 0).2
      ≤ max_rate (lookup_policy initial_state LEGIT_ID)
  ∧ returns (defensive_gateway_step initial_state 0
               (mk_msg LEGIT_ID (buf ++ [Byte.x00; Byte.x00; Byte.x00; Byte.x00])))
      (λ ev, ev_verdict ev = ForwardedLegitEngine 2500 90 70).
Proof.
  intros buf.
  assert (Hp : pack_engine_data 2500 90 70 = Ok buf) by reflexivity.
  assert (Hr : Z.of_nat (record_and_count (id_timestamps initial_state) LEGIT_ID 0).2
               ≤ max_rate (lookup_policy initial_state LEGIT_ID))
    by (vm_compute; discriminate).
  split; [exact Hp|]. split; [exact Hr|].
  exact (packed_frame_verdict initial_state 0 2500 90 70 buf
           [Byte.x00; Byte.x00; Byte.x00; Byte.x00] Hp Hr).
Defined.

(** X6. The tracker sees identifiers and clock readings only.  On every
    stream the loop returns one decision per frame, keeps the policy table,
    and ends with the tracker obtained by recording the identifier and
    clock reading of every frame, blocked or not; two streams with the
    same identifiers and clock readings end with the same tracker,
    whatever their payloads. *)
Theorem tracker_ignores_payloads (st : gw_state) (rx rx' : list (Q * message)) :
  events rx' = events rx →
  returns (defensive_gateway st rx)
    (λ r, length r.2 = length rx
          ∧ policy_table r.1 = policy_table st
          ∧ id_timestamps r.1 = replay (events rx) (id_timestamps st)
          ∧ returns (defensive_gateway st rx') (λ r', r'.1 = r.1)).
Proof.
  intros Hev.
  destruct (gateway_run rx st) as (evs & -> & Hlen).
  destruct (gateway_run rx' st) as (evs' & -> & _). simpl.
  by rewrite Hev.
Qed.

Lemma tracker_ignores_payloads_witness :
  let rx := [(0%Q, mk_msg FLOOD_ID [Byte.xde; Byte.xad]); (1 # 2, mk_msg LEGIT_ID [])] in
  let rx' := [(0%Q, mk_msg FLOOD_ID []); (1 # 2, mk_msg LEGIT_ID [Byte.x28; Byte.x23; Byte.x5a; Byte.x46])] in
  events rx' = events rx
  ∧ returns (defensive_gateway initial_state rx)
      (λ r, returns (defensive_gateway initial_state rx') (λ r', r'.1 = r.1)).
Proof.
  intros rx rx'.
  assert (Hev : events rx' = events rx) by reflexivity.
  split; [exact Hev|].
  pose proof (tracker_ignores_payloads initial_state rx rx' Hev) as Hret.
  destruct (defensive_gateway initial_state rx) as [r|]; [|exact Hret].
  destruct Hret as (_ & _ & _ & Hsame). exact Hsame.
Defined.

Section Throttle.

Local Arguments record_and_count : simpl never.
Local Arguments lookup_policy : simpl never.

Lemma events_snoc (rx : list (Q * message)) (now : Q) (msg : message) :
  events (rx ++ [(now, msg)]) = events rx ++ [(arbitration_id msg, now)].
Proof. unfold events. by rewrite fmap_app. Qed.

(** The count returned after a history with non-decreasing timestamps. *)
Lemma count_after_replay (h : list (Z * Q)) (i : Z) (t : Q) :
  Sorted Qle (arrivals i h ++ [t]) →
  (record_and_count (replay h ∅) i t).2
  = S (length (List.filter (in_last_second t) (arrivals i h))).
Proof.
  intros Hs. pose proof (window_of_snoc _ _ Hs) as Hw.
  apply sorted_snoc_inv in Hs as [Hs _].
  unfold record_and_count; cbn [snd]. rewrite replay_lookup by done.
  change (λ ts, in_last_second t ts) with (in_last_second t).
  rewrite Hw, List.filter_app, length_app. simpl.
  rewrite in_last_second_refl. simpl. lia.
Qed.

(** The frames admitted in a window that has not ended at [t] are among
    the arrivals the tracker keeps at [t]. *)
Lemma admitted_le (i : Z) (t0 t : Q) (rx : list (Q * message)) (evs : list evaluation) :
  (∀ ts, ts ∈ arrivals i (events rx) → (ts <= t)%Q) →
  (t < t0 + effective_window)%Q →
  (length (List.filter (admitted_in i t0) (zip rx evs))
   ≤ length (List.filter (in_last_second t) (arrivals i (events rx))))%nat.
Proof.
  intros Hle Ht. revert evs Hle.
  induction rx as [|[now msg] rx IH]; intros evs Hle; [simpl; lia|].
  destruct evs as [|ev evs]; [simpl; lia|].
  change (events ((now, msg) :: rx)) with ((arbitration_id msg, now) :: events rx) in *.
  rewrite arrivals_cons in Hle |- *. cbn [fst snd] in *.
  change (zip ((now, msg) :: rx) (ev :: evs)) with (((now, msg), ev) :: zip rx evs).
  cbn [List.filter].
  destruct (decide (arbitration_id msg = i)) as [Hid|Hid].
  - assert (IH' := IH evs (λ ts Hts, Hle ts (list_elem_of_further _ _ _ Hts))).
    cbn [List.filter].
    destruct (admitted_in i t0 (now, msg, ev)) eqn:Hadm.
    + apply andb_true_iff in Hadm as [[[_ Hlo]%andb_true_iff _]%andb_true_iff _].
      apply Qle_bool_iff in Hlo. cbn [fst snd] in Hlo.
      assert (in_last_second t now = true) as ->.
      { apply in_last_second_spec. lra. }
      simpl. lia.
    + destruct (in_last_second t now); simpl; lia.
  - assert (admitted_in i t0 (now, msg, ev) = false) as ->.
    { unfold admitted_in, for_id. cbn [fst snd].
      by apply Z.eqb_neq in Hid as ->. }
    by apply IH.
Qed.

End Throttle.

(** X8. The throttle.  Run the loop from an empty tracker, with any policy
    table, on a stream in which the clock readings of identifier [i] never
    decrease.  Among the frames of [i] received in any window
    [[t0, t0 + effective_window)], the length [1 - 2^-54] under which the
    floating-point age of a reading is below [1.0], the number that pass
    the rate check is zero or at most the max_rate of the policy of [i]. *)
Theorem throttle_per_window (tbl : gmap Z policy_entry) (rx : list (Q * message))
    (i : Z) (t0 : Q) :
  Sorted Qle (arrivals i (events rx)) →
  returns (defensive_gateway {| policy_table := tbl; id_timestamps := ∅ |} rx)
    (λ r, let n := length (List.filter (admitted_in i t0) (zip rx r.2)) in
          n = 0%nat ∨ Z.of_nat n ≤ max_rate (default default_policy (tbl !! i))).
Proof.
  induction rx as [|[now msg] rx IH] using rev_ind; intros Hs; [by left|].
  set (st := {| policy_table := tbl; id_timestamps := ∅ |}) in *.
  destruct (gateway_snoc st rx now msg) as (evs & ev & Hrun & Hlen & Hstep & ->).
  rewrite Hrun in IH. cbn [returns snd] in IH |- *.
  rewrite zip_with_app by done. rewrite List.filter_app, length_app.
  rewrite events_snoc, arrivals_snoc in Hs. cbn [fst snd] in Hs.
  cbn [zip_with List.filter].
  destruct (admitted_in i t0 (now, msg, ev)) eqn:Hadm.
  - right.
    apply andb_true_iff in Hadm as [[[Hid _]%andb_true_iff Hhi]%andb_true_iff Hpass].
    apply Z.eqb_eq in Hid. cbn [fst snd] in Hid, Hhi, Hpass. apply Qltb_lt in Hhi.
    rewrite decide_True in Hs by done.
    destruct (step_rate_verdict {| policy_table := policy_table st;
                                   id_timestamps := replay (events rx) (id_timestamps st) |}
                now msg) as (ev' & Hstep' & _ & _ & _ & Hblocked & _).
    rewrite Hstep in Hstep'. injection Hstep' as <-.
    cbn [policy_table id_timestamps st] in Hblocked. rewrite Hid in Hblocked.
    rewrite count_after_replay in Hblocked by done.
    assert (Hnot : ¬ max_rate (lookup_policy {| policy_table := tbl;
                     id_timestamps := replay (events rx) ∅ |} i)
                   < Z.of_nat (S (length (List.filter (in_last_second now)
                                            (arrivals i (events rx)))))).
    { intros Hlt. apply Hblocked in Hlt. congruence. }
    pose proof (admitted_le i t0 now rx evs
                  (proj2 (sorted_snoc_inv _ _ Hs)) Hhi) as Hcount.
    unfold lookup_policy in Hnot. cbn [policy_table] in Hnot.
    simpl length. lia.
  - simpl length. rewrite Nat.add_0_r. apply IH.
    destruct (decide (arbitration_id msg = i)).
    + by apply sorted_snoc_inv in Hs as [? _].
    + by rewrite app_nil_r in Hs.
Qed.

Lemma throttle_per_window_witness :
  let rx := map (λ k : nat, (Z.of_nat k # 64, mk_msg FLOOD_ID
                               [Byte.xde; Byte.xad; Byte.xbe; Byte.xef]))
                (seq 0 13) in
  Sorted Qle (arrivals FLOOD_ID (events rx))
  ∧ returns (defensive_gateway initial_state rx)
      (λ r, let n := length (List.filter (admitted_in FLOOD_ID 0) (zip rx r.2)) in
            n = 0%nat ∨ Z.of_nat n ≤ 10).
Proof.
  intros rx.
  assert (Hs : Sorted Qle (arrivals FLOOD_ID (events rx))).
  { repeat (constructor; try (intro; discriminate)). }
  split; [exact Hs|].
  exact (throttle_per_window PER_ID_POLICY rx FLOOD_ID 0 Hs).
Defined.

Section Views.

Local Arguments record_and_count : simpl never.
Local Arguments lookup_policy : simpl never.

Lemma record_and_count_same_list (tbl1 tbl2 : gmap Z (list Q)) (i : Z) (now : Q) :
  tbl1 !! i = tbl2 !! i →
  (record_and_count tbl1 i now).2 = (record_and_count tbl2 i now).2
  ∧ (record_and_count tbl1 i now).1 !! i = (record_and_count tbl2 i now).1 !! i.
Proof.
  intros Heq. unfold record_and_count. cbn [fst snd].
  by rewrite !lookup_insert_eq, Heq.
Qed.

(** The step reads the state through the limit and label of the policy of
    the identifier, and through the timestamps stored for it. *)
Lemma step_same_view (st1 st2 : gw_state) (now : Q) (msg : message) :
  max_rate (lookup_policy st1 (arbitration_id msg))
    = max_rate (lookup_policy st2 (arbitration_id msg)) →
  label (lookup_policy st1 (arbitration_id msg))
    = label (lookup_policy st2 (arbitration_id msg)) →
  id_timestamps st1 !! arbitration_id msg = id_timestamps st2 !! arbitration_id msg →
  ∃ v rate calls,
    defensive_gateway_step st1 now msg =
      Ok {| ev_state := {| policy_table := policy_table st1;
                           id_timestamps :=
                             (record_and_count (id_timestamps st1)
                                (arbitration_id msg) now).1 |};
            ev_verdict := v; observed_rate := rate;
            policy_used := lookup_policy st1 (arbitration_id msg);
            ev_calls := calls |}
    ∧ defensive_gateway_step st2 now msg =
      Ok {| ev_state := {| policy_table := policy_table st2;
                           id_timestamps :=
                             (record_and_count (id_timestamps st2)
                                (arbitration_id msg) now).1 |};
            ev_verdict := v; observed_rate := rate;
            policy_used := lookup_policy st2 (arbitration_id msg);
            ev_calls := calls |}.
Proof.
  intros Hmax Hlabel Hts.
  destruct (record_and_count_same_list _ _ _ now Hts) as [Hrate _].
  destruct (Z.lt_ge_cases (max_rate (lookup_policy st1 (arbitration_id msg)))
              (Z.of_nat (record_and_count (id_timestamps st1)
                           (arbitration_id msg) now).2)) as [Hover|Hunder].
  { rewrite (step_blocked_rate st1), (step_blocked_rate st2) by (done || congruence).
    rewrite Hlabel, Hrate. by eexists _, _, _. }
  destruct (decide (arbitration_id msg = LEGIT_ID ∧ (4 ≤ length (data msg))%nat))
    as [[Hid Hlen]|Hno].
  - destruct (step_engine_branch st1 now msg Hunder Hid Hlen)
      as (rpm & temp & fuel & Hu & ->).
    destruct (step_engine_branch st2 now msg) as (rpm' & temp' & fuel' & Hu' & ->);
      [congruence | done | done |].
    rewrite Hu in Hu'. injection Hu' as <- <- <-.
    rewrite Hrate. by eexists _, _, _.
  - assert (Hbranch : arbitration_id msg ≠ LEGIT_ID ∨ (length (data msg) < 4)%nat).
    { destruct (decide (arbitration_id msg = LEGIT_ID)); [right|by left].
      apply Nat.nlt_ge. intros ?. apply Hno. split; [done|lia]. }
    rewrite (step_no_engine_branch st1), (step_no_engine_branch st2)
      by (done || congruence).
    rewrite Hrate. by eexists _, _, _.
Qed.

(** Running the frames of one identifier alone, from a state that agrees
    on the policy table and on the timestamps of that identifier. *)
Lemma isolation_from (i : Z) (rx : list (Q * message)) (st1 st2 : gw_state) :
  policy_table st1 = policy_table st2 →
  id_timestamps st1 !! i = id_timestamps st2 !! i →
  ∃ r1 r2,
    defensive_gateway st1 rx = Ok r1
    ∧ defensive_gateway st2 (List.filter (for_id i) rx) = Ok r2
    ∧ decision_of <$> (List.filter (λ p, for_id i p.1) (zip rx r1.2)).*2
      = decision_of <$> r2.2
    ∧ id_timestamps r1.1 !! i = id_timestamps r2.1 !! i.
Proof.
  revert st1 st2. induction rx as [|[now msg] rx IH]; intros st1 st2 Htbl Hts.
  { by eexists (_, _), (_, _). }
  cbn [List.filter defensive_gateway]. unfold for_id at 1. cbn [fst snd].
  destruct (Z.eqb_spec (arbitration_id msg) i) as [Hid|Hid].
  - subst i.
    destruct (step_same_view st1 st2 now msg) as (v & rate & calls & Hs1 & Hs2);
      [unfold lookup_policy; by rewrite Htbl .. | done |].
    cbn [defensive_gateway]. rewrite Hs1, Hs2. cbn [mbind result_bind ev_state].
    destruct (IH {| policy_table := policy_table st1;
                    id_timestamps := (record_and_count (id_timestamps st1)
                                        (arbitration_id msg) now).1 |}
                 {| policy_table := policy_table st2;
                    id_timestamps := (record_and_count (id_timestamps st2)
                                        (arbitration_id msg) now).1 |}
                 Htbl (proj2 (record_and_count_same_list _ _ _ now Hts)))
      as ([st1' evs1] & [st2' evs2] & -> & -> & Hdec & Hfin).
    eexists (_, _), (_, _). split; [done|]. split; [done|].
    cbn [fst snd zip_with List.filter] in *. unfold for_id at 1. cbn [fst snd].
    rewrite Z.eqb_refl. cbn [fmap list_fmap snd].
    split; [|done]. f_equal; [|exact Hdec].
    unfold decision_of. cbn. do 2 f_equal. unfold lookup_policy. by rewrite Htbl.
  - destruct (step_returns st1 now msg) as (v & calls & Hs1).
    rewrite Hs1. cbn [mbind result_bind ev_state].
    destruct (IH {| policy_table := policy_table st1;
                    id_timestamps := (record_and_count (id_timestamps st1)
                                        (arbitration_id msg) now).1 |}
                 st2 Htbl) as ([st1' evs1] & [st2' evs2] & -> & -> & Hdec & Hfin).
    { cbn [id_timestamps]. rewrite record_and_count_other by done. exact Hts. }
    eexists (_, _), (_, _). split; [done|]. split; [done|].
    cbn [fst snd zip_with List.filter] in *. unfold for_id at 1. cbn [fst snd].
    by apply Z.eqb_neq in Hid as ->.
Qed.

End Views.

(** X9. Identifiers do not interfere.  On any stream, from any state, the
    decisions on the frames of identifier [i] (verdict, observed rate,
    policy, calls) are those the loop takes on these frames alone, the
    frames of every other identifier removed; the timestamps stored for
    [i] at the end are the same too.  A flood on one identifier changes no
    decision on another. *)
Theorem identifier_isolation (st : gw_state) (rx : list (Q * message)) (i : Z) :
  returns (defensive_gateway st rx)
    (λ r, returns (defensive_gateway st (List.filter (for_id i) rx))
            (λ r', decision_of <$> (List.filter (λ p, for_id i p.1) (zip rx r.2)).*2
                   = decision_of <$> r'.2
                   ∧ id_timestamps r.1 !! i = id_timestamps r'.1 !! i)).
Proof.
  destruct (isolation_from i rx st st eq_refl eq_refl)
    as (r1 & r2 & -> & -> & Hdec & Hfin).
  done.
Qed.

(** X7. The [trusted] flag decides nothing.  Replacing the [trusted] flags
    of the policy table in any way leaves the verdict, the observed rate,
    the calls made on the payload and the tracker of every step as they
    were: the payload check is tied to [LEGIT_ID], not to the flag. *)
Theorem trusted_flag_unused (g : policy_entry → bool) (st : gw_state) (now : Q)
    (msg : message) :
  returns (defensive_gateway_step st now msg)
    (λ ev, returns (defensive_gateway_step
                      {| policy_table := retrust g (policy_table st);
                         id_timestamps := id_timestamps st |} now msg)
             (λ ev', ev_verdict ev' = ev_verdict ev
                     ∧ observed_rate ev' = observed_rate ev
                     ∧ ev_calls ev' = ev_calls ev
                     ∧ id_timestamps (ev_state ev') = id_timestamps (ev_state ev)
                     ∧ max_rate (policy_used ev') = max_rate (policy_used ev)
                     ∧ label (policy_used ev') = label (policy_used ev))).
Proof.
  set (st' := {| policy_table := retrust g (policy_table st);
                 id_timestamps := id_timestamps st |}).
  assert (Hpol : max_rate (lookup_policy st (arbitration_id msg))
                   = max_rate (lookup_policy st' (arbitration_id msg))
                 ∧ label (lookup_policy st (arbitration_id msg))
                   = label (lookup_policy st' (arbitration_id msg))).
  { unfold lookup_policy, st', retrust. cbn [policy_table]. rewrite lookup_fmap.
    by destruct (policy_table st !! arbitration_id msg). }
  destruct Hpol as [Hmax Hlabel].
  destruct (step_same_view st st' now msg Hmax Hlabel eq_refl)
    as (v & rate & calls & -> & ->).
  by cbn.
Qed.

Section Stored.

Local Arguments record_and_count : simpl never.

Lemma filter_sublist {A} (p : A → bool) (l : list A) : List.filter p l `sublist_of` l.
Proof.
  induction l as [|x l IH]; simpl; [done|].
  destruct (p x); [by apply sublist_skip | by apply sublist_cons].
Qed.

Lemma filter_none {A} (p : A → bool) (l : list A) :
  Forall (λ x, p x = false) l → List.filter p l = [].
Proof. induction 1 as [|x l Hx _ IH]; simpl; [done|]. by rewrite Hx. Qed.

Lemma arrivals_nil (i : Z) (h : list (Z * Q)) : arrivals i h = [] ↔ i ∉ h.*1.
Proof.
  induction h as [|e h IH]; [split; [intros _; apply not_elem_of_nil | done]|].
  rewrite arrivals_cons, fmap_cons, not_elem_of_cons. case_decide.
  - split; [done | intros [? _]; congruence].
  - rewrite IH. split; [intros ?; split; congruence | by intros [_ ?]].
Qed.

(** What the tracker holds for an identifier after any history, the clock
    readings in any order. *)
Lemma replay_stored (h : list (Z * Q)) (i : Z) :
  match replay h ∅ !! i with
  | None => arrivals i h = []
  | Some l => l ≠ [] ∧ last l = last (arrivals i h) ∧ l `sublist_of` arrivals i h
  end.
Proof.
  induction h as [|e h IH] using rev_ind; [done|].
  rewrite replay_snoc, arrivals_snoc. unfold record_and_count. cbn [fst].
  case_decide as He.
  - subst i. rewrite lookup_insert_eq. split; [|split].
    + intros [_ [=]]%app_eq_nil.
    + by rewrite !last_snoc.
    + apply sublist_app; [|done].
      etransitivity; [apply filter_sublist|].
      destruct (replay h ∅ !! e.1); [apply IH | apply sublist_nil_l].
  - rewrite lookup_insert_ne by done. by rewrite app_nil_r.
Qed.

End Stored.

(** X11. The tracker's invariant.  After any history from the empty
    tracker, in whatever order the clock readings come, an identifier that
    has not been seen has no entry, and the entry of one that has been seen
    is a non-empty list that ends with its latest clock reading and is
    made of its clock readings, in arrival order: entries are created on
    first sighting and never removed or emptied. *)
Theorem tracker_invariant (h : list (Z * Q)) (i : Z) :
  match replay h ∅ !! i with
  | None => i ∉ h.*1
  | Some l =>
      i ∈ h.*1
      ∧ l ≠ []
      ∧ last l = last (arrivals i h)
      ∧ l `sublist_of` arrivals i h
  end.
Proof.
  pose proof (replay_stored h i) as Hst.
  destruct (replay h ∅ !! i) as [l|]; [|by apply arrivals_nil].
  destruct Hst as (Hne & Hlast & Hsub). split; [|done].
  destruct (decide (i ∈ h.*1)) as [|Hnot]; [done|].
  apply arrivals_nil in Hnot. rewrite Hnot in Hsub.
  by apply sublist_nil_r in Hsub.
Qed.

(** X10. Throttling ends after a quiet second.  When every earlier clock
    reading of identifier [i] is at least one second older than [t]
    (in particular when [i] has not been seen), a frame of [i] at [t] is
    counted at rate 1, and it passes the rate check as soon as the
    max_rate of its policy is at least 1. *)
Theorem quiet_second_resets (tbl : gmap Z policy_entry) (h : list (Z * Q))
    (i : Z) (t : Q) (payload : list Byte.byte) :
  Forall (λ ts, (1 <= t - ts)%Q) (arrivals i h) →
  returns (defensive_gateway_step
             {| policy_table := tbl; id_timestamps := replay h ∅ |} t (mk_msg i payload))
    (λ ev, observed_rate ev = 1%nat
           ∧ (1 ≤ max_rate (policy_used ev) → ev_outcome ev ≠ BlockedRateLimit)).
Proof.
  intros Hold.
  destruct (step_rate_verdict {| policy_table := tbl; id_timestamps := replay h ∅ |}
              t (mk_msg i payload)) as (ev & -> & Hrate & Hpol & _ & _ & Hblocked & _).
  cbn [returns arbitration_id mk_msg id_timestamps] in *.
  assert (Hone : (record_and_count (replay h ∅) i t).2 = 1%nat).
  { unfold record_and_count. cbn [snd]. rewrite length_app, filter_none; [done|].
    pose proof (replay_stored h i) as Hst.
    destruct (replay h ∅ !! i) as [l|]; [|by constructor]. simpl.
    destruct Hst as (_ & _ & Hsub). apply Forall_forall. intros ts Hts.
    apply not_true_iff_false. intros Hfresh%in_last_second_spec.
    assert (Hin : ts ∈ arrivals i h) by (by eapply sublist_subseteq).
    pose proof (proj1 (Forall_forall _ _) Hold ts Hin) as Hts_old. simpl in Hts_old.
    pose proof effective_window_bounds. lra. }
  rewrite Hone in *. split; [done|].
  intros Hmax Hb. apply Hblocked in Hb. rewrite <- Hpol in Hb. lia.
Qed.

Lemma quiet_second_resets_witness :
  let h := [(FLOOD_ID, 0%Q); (FLOOD_ID, 1 # 8); (LEGIT_ID, 1 # 2)] in
  Forall (λ ts, (1 <= (9 # 8) - ts)%Q) (arrivals FLOOD_ID h)
  ∧ returns (defensive_gateway_step
               {| policy_table := PER_ID_POLICY; id_timestamps := replay h ∅ |}
               (9 # 8) (mk_msg FLOOD_ID []))
      (λ ev, observed_rate ev = 1%nat
             ∧ (1 ≤ max_rate (policy_used ev) → ev_outcome ev ≠ BlockedRateLimit)).
Proof.
  intros h.
  assert (Hold : Forall (λ ts, (1 <= (9 # 8) - ts)%Q) (arrivals FLOOD_ID h)).
  { repeat (constructor; try (intro; discriminate)). }
  split; [exact Hold|].
  exact (quiet_second_resets PER_ID_POLICY h FLOOD_ID (9 # 8) [] Hold).
Defined.

Section Versions.

Local Arguments record_and_count : simpl never.
Local Arguments lookup_policy : simpl never.
Local Arguments Nat.leb : simpl never.
Local Arguments Z.ltb : simpl never.
Local Arguments Z.eqb : simpl never.

(** The first version returns on every frame, and blocks it exactly when
    the count exceeds the global limit. *)
Lemma original_step_cases (ts : gmap Z (list Q)) (now : Q) (msg : message) :
  ∃ v,
    Original.defensive_gateway_step ts now msg =
    Ok {| Original.o_timestamps := (record_and_count ts (arbitration_id msg) now).1;
          Original.o_verdict := v;
          Original.o_rate := (record_and_count ts (arbitration_id msg) now).2 |}
    ∧ (v = Original.Blocked ↔
       Original.MAX_FRAMES_PER_ID_PER_SEC
       < Z.of_nat (record_and_count ts (arbitration_id msg) now).2).
Proof.
  unfold Original.defensive_gateway_step.
  destruct (record_and_count ts (arbitration_id msg) now) as [tbl rate]. cbn [fst snd].
  destruct (_ <? _) eqn:Hlt.
  { eexists. split; [done|]. by apply Z.ltb_lt in Hlt. }
  apply Z.ltb_ge in Hlt.
  destruct (_ && _) eqn:Hengine.
  - apply andb_true_iff in Hengine as [_ Hlen].
    apply Nat.leb_le, take_4_long in Hlen as (b0 & b1 & b2 & b3 & rest & _ & ->).
    eexists. split; [done|]. split; [done | lia].
  - destruct (_ =? FLOOD_ID); (eexists; split; [done|]; split; [done | lia]).
Qed.

(** The policy the table of the gateway gives to each identifier. *)
Lemma lookup_policy_PER_ID (st : gw_state) (i : Z) :
  policy_table st = PER_ID_POLICY →
  lookup_policy st i =
  if decide (i = FLOOD_ID)
  then {| max_rate := 10; label := "UNTRUSTED_FLOOD"%string; trusted := false |}
  else if decide (i = LEGIT_ID)
       then {| max_rate := 50; label := "LEGIT_ENGINE"%string; trusted := true |}
       else default_policy.
Proof.
  intros Htbl. unfold lookup_policy. rewrite Htbl.
  rewrite PER_ID_POLICY_unfold. case_decide as Hf.
  - subst i. by rewrite lookup_insert_eq.
  - rewrite lookup_insert_ne by done. case_decide as Hl.
    + subst i. by rewrite lookup_insert_eq.
    + by rewrite lookup_insert_ne, lookup_empty.
Qed.

End Versions.

(** X12. The two versions of the gateway, on one frame.  With the policy
    table of the gateway and the same tracker, both versions return, store
    the same timestamps and count the same rate.  A frame the per-ID
    version blocks for its rate is blocked by the first version too; on
    [FLOOD_ID] the two block the same frames; and a frame the first
    version forwards is refused by the per-ID version only as an
    implausible [LEGIT_ID] payload of at least four bytes. *)
Theorem per_id_version_vs_original (st : gw_state) (now : Q) (msg : message) :
  policy_table st = PER_ID_POLICY →
  returns (Original.defensive_gateway_step (id_timestamps st) now msg)
    (λ o, returns (defensive_gateway_step st now msg)
      (λ ev, Original.o_timestamps o = id_timestamps (ev_state ev)
             ∧ Original.o_rate o = observed_rate ev
             ∧ (ev_outcome ev = BlockedRateLimit → Original.o_verdict o = Original.Blocked)
             ∧ (arbitration_id msg = FLOOD_ID →
                (Original.o_verdict o = Original.Blocked ↔ ev_outcome ev = BlockedRateLimit))
             ∧ (Original.o_verdict o ≠ Original.Blocked →
                ev_outcome ev ≠ Forwarded →
                ev_outcome ev = BlockedSemanticCheck
                ∧ arbitration_id msg = LEGIT_ID
                ∧ (4 ≤ length (data msg))%nat))).
Proof.
  intros Htbl.
  destruct (original_step_cases (id_timestamps st) now msg) as (v & -> & Hv).
  destruct (step_rate_verdict st now msg)
    as (ev & -> & Hrate & Hpol & Hst & _ & Hblocked & Hsem).
  cbn [returns Original.o_timestamps Original.o_rate Original.o_verdict].
  rewrite Hst, Hrate. cbn [id_timestamps].
  rewrite (lookup_policy_PER_ID st _ Htbl) in Hblocked.
  unfold Original.MAX_FRAMES_PER_ID_PER_SEC in Hv.
  split; [done|]. split; [done|]. split; [|split].
  - intros Hb%Hblocked. apply Hv.
    repeat case_decide; unfold default_policy, DEFAULT_MAX_RATE in Hb;
      cbn [max_rate] in Hb; lia.
  - intros Hflood. rewrite Hv, Hblocked. by rewrite decide_True.
  - intros Hfw Hnot.
    assert (Hsc : ev_outcome ev = BlockedSemanticCheck).
    { destruct (ev_outcome ev) eqn:Ho; [done| |done].
      exfalso. apply Hfw, Hv. pose proof (proj1 Hblocked eq_refl) as Hlt.
      repeat case_decide; unfold default_policy, DEFAULT_MAX_RATE in Hlt;
        cbn [max_rate] in Hlt; lia. }
    split; [done|]. by apply Hsem.
Qed.

Lemma per_id_version_vs_original_witness :
  let msg := mk_msg LEGIT_ID [Byte.x28; Byte.x23; Byte.x5a; Byte.x46] in
  policy_table initial_state = PER_ID_POLICY
  ∧ returns (Original.defensive_gateway_step (id_timestamps initial_state) 0 msg)
      (λ o, returns (defensive_gateway_step initial_state 0 msg)
         (λ ev, Original.o_verdict o = Original.ForwardedLegit 9000 90 70
                ∧ ev_outcome ev = BlockedSemanticCheck)).
Proof.
  intros msg. split; [reflexivity|].
  pose proof (per_id_version_vs_original initial_state 0 msg eq_refl) as Hret.
  vm_compute in Hret |- *.
  destruct Hret as (_ & _ & _ & _ & Hsem).
  split; [reflexivity|].
  destruct Hsem as [Hsc _]; [discriminate | discriminate | exact Hsc].
Defined.

(** X13. The two versions of the gateway, on a stream.  From the same
    tracker, on any stream, both loops return one result per frame, end
    with the same tracker and report the same rates; and the first version
    blocks a frame exactly when its rate exceeds 10, whatever its
    identifier and payload. *)
Theorem original_loop_same_tracker (st : gw_state) (rx : list (Q * message)) :
  returns (Original.defensive_gateway (id_timestamps st) rx)
    (λ ro, returns (defensive_gateway st rx)
      (λ r, ro.1 = id_timestamps r.1
            ∧ length ro.2 = length rx
            ∧ Original.o_rate <$> ro.2 = observed_rate <$> r.2
            ∧ Forall (λ o, Original.o_verdict o = Original.Blocked
                           ↔ 10 < Z.of_nat (Original.o_rate o)) ro.2)).
Proof.
  revert st. induction rx as [|[now msg] rx IH]; intros st; [by cbn|].
  cbn [Original.defensive_gateway defensive_gateway].
  destruct (original_step_cases (id_timestamps st) now msg) as (v & -> & Hv).
  destruct (step_rate_verdict st now msg) as (ev & -> & Hrate & _ & Hst & _).
  cbn [mbind result_bind Original.o_timestamps].
  specialize (IH (ev_state ev)). rewrite Hst in IH at 1. cbn [id_timestamps] in IH.
  destruct (Original.defensive_gateway _ rx) as [[tbl os]|]; [|done].
  destruct (defensive_gateway (ev_state ev) rx) as [[st' evs]|]; [|done].
  cbn in IH |- *. destruct IH as (-> & Hlen & Hrates & Hall).
  split; [done|]. split; [by rewrite Hlen|]. split; [by rewrite Hrate, Hrates|].
  by constructor.
Qed.

Section Receiver.

Local Arguments Nat.leb : simpl never.
Local Arguments Z.eqb : simpl never.

Lemma receiver_insecure_step_returns (c : Attack.counters) (msg : message) :
  ∃ line,
    Attack.receiver_insecure_step c msg =
    Ok ({| Attack.count_legit :=
             Attack.count_legit c + (if Z.eqb (arbitration_id msg) LEGIT_ID then 1 else 0)%nat;
           Attack.count_attack :=
             Attack.count_attack c + (if Z.eqb (arbitration_id msg) FLOOD_ID then 1 else 0)%nat |},
        line).
Proof.
  unfold Attack.receiver_insecure_step. destruct c as [cl ca].
  cbn [Attack.count_legit Attack.count_attack].
  destruct (Z.eqb_spec (arbitration_id msg) LEGIT_ID) as [Hl|Hl].
  - assert ((arbitration_id msg =? FLOOD_ID) = false) as -> by (rewrite Hl; done).
    rewrite Nat.add_0_r, Nat.add_1_r.
    destruct (4 <=? _)%nat eqn:Hlen; [|by eexists].
    apply Nat.leb_le, take_4_long in Hlen as (b0 & b1 & b2 & b3 & rest & _ & ->).
    by eexists.
  - rewrite Nat.add_0_r. destruct (_ =? FLOOD_ID).
    + rewrite Nat.add_1_r. by eexists.
    + rewrite Nat.add_0_r. by eexists.
Qed.

Lemma receiver_insecure_from_counts (rx : list message) (c : Attack.counters) :
  returns (Attack.receiver_insecure_from c rx)
    (λ r, Attack.count_legit r.1
            = (Attack.count_legit c
               + length (List.filter (λ m, Z.eqb (arbitration_id m) LEGIT_ID) rx))%nat
          ∧ Attack.count_attack r.1
            = (Attack.count_attack c
               + length (List.filter (λ m, Z.eqb (arbitration_id m) FLOOD_ID) rx))%nat
          ∧ length r.2 = length rx).
Proof.
  revert c. induction rx as [|msg rx IH]; intros c.
  { cbn. lia. }
  cbn [Attack.receiver_insecure_from].
  destruct (receiver_insecure_step_returns c msg) as (line & ->).
  cbn [mbind result_bind].
  specialize (IH {| Attack.count_legit :=
                      Attack.count_legit c + (if Z.eqb (arbitration_id msg) LEGIT_ID then 1 else 0)%nat;
                    Attack.count_attack :=
                      Attack.count_attack c + (if Z.eqb (arbitration_id msg) FLOOD_ID then 1 else 0)%nat |}).
  destruct (Attack.receiver_insecure_from _ rx) as [[c2 lines]|]; [|done].
  cbn in IH |- *. destruct IH as (-> & -> & ->).
  destruct (arbitration_id msg =? LEGIT_ID), (arbitration_id msg =? FLOOD_ID);
    cbn; lia.
Qed.

End Receiver.

(** X14. The receiver without defence.  On any stream, payloads of any
    length, [receiver_insecure] returns with one log line per frame, the
    number of [LEGIT_ID] frames in [count_legit] and the number of
    [FLOOD_ID] frames in [count_attack]: nothing is dropped, and a short
    engine payload is logged raw instead of being decoded. *)
Theorem receiver_insecure_counts (rx : list message) :
  returns (Attack.receiver_insecure rx)
    (λ r, Attack.count_legit r.1
            = length (List.filter (λ m, Z.eqb (arbitration_id m) LEGIT_ID) rx)
          ∧ Attack.count_attack r.1
            = length (List.filter (λ m, Z.eqb (arbitration_id m) FLOOD_ID) rx)
          ∧ length r.2 = length rx
          ∧ (Attack.count_legit r.1 + Attack.count_attack r.1 ≤ length rx)%nat).
Proof.
  unfold Attack.receiver_insecure.
  pose proof (receiver_insecure_from_counts rx
                {| Attack.count_legit := 0; Attack.count_attack := 0 |}) as Hret.
  destruct (Attack.receiver_insecure_from _ rx) as [[c lines]|]; [|done].
  cbn in Hret |- *. destruct Hret as (-> & -> & ->).
  split; [done|]. split; [done|]. split; [done|].
  clear. induction rx as [|m rx IH]; cbn; [lia|].
  destruct (Z.eqb_spec (arbitration_id m) LEGIT_ID) as [Hl|Hl].
  - rewrite Hl. cbn. lia.
  - destruct (arbitration_id m =? FLOOD_ID); cbn; lia.
Qed.
